(** * personal-qr-code: the vCard form pipeline

    A shallow embedding of [src/components/vcard/VCardForm.tsx]: the
    validation schema, the vCard serializer, the download-name slug and the
    submit / settle / reset handlers of the form component, followed by the
    properties the specification states about them.

    Text is modelled by [string]; one [ascii] stands for one UTF-16 code
    unit in the range 0..255 (the Latin-1 block), which is where all the
    character classes used by the component live. *)

From Stdlib Require Import Ascii String List Bool Arith Lia DecimalString.
From stdpp Require Import base decidable option countable list gmap strings.

Local Open Scope stdpp_scope.

(** ** ECMAScript string primitives used by the component *)

Module JS.

Definition code (c : ascii) : nat := nat_of_ascii c.

(** WhiteSpace and LineTerminator code units below 256: TAB, LF, VT, FF,
    CR, SP and NBSP. *)
Definition is_whitespace (c : ascii) : bool :=
  let n := code c in
  (Nat.leb 9 n && Nat.leb n 13) || Nat.eqb n 32 || Nat.eqb n 160.

(** Truthiness of a string: only the empty string is falsy. *)
Definition truthy (s : string) : bool :=
  match s with
  | EmptyString => false
  | String _ _ => true
  end.

(** [a || b] on strings. *)
Definition or (a b : string) : string := if truthy a then a else b.

Fixpoint trimStart (s : string) : string :=
  match s with
  | EmptyString => EmptyString
  | String c s' => if is_whitespace c then trimStart s' else s
  end.

Fixpoint trimEnd (s : string) : string :=
  match s with
  | EmptyString => EmptyString
  | String c s' =>
      match trimEnd s' with
      | EmptyString => if is_whitespace c then EmptyString else String c EmptyString
      | t => String c t
      end
  end.

(** [String.prototype.trim] *)
Definition trim (s : string) : string := trimEnd (trimStart s).

(** [String.prototype.toLowerCase] on one code unit: A-Z, and the Latin-1
    capitals U+00C0..U+00DE except the multiplication sign U+00D7. *)
Definition lower_unit (c : ascii) : ascii :=
  let n := code c in
  if (Nat.leb 65 n && Nat.leb n 90)
     || (Nat.leb 192 n && Nat.leb n 222 && negb (Nat.eqb n 215))
  then ascii_of_nat (n + 32)
  else c.

Fixpoint toLowerCase (s : string) : string :=
  match s with
  | EmptyString => EmptyString
  | String c s' => String (lower_unit c) (toLowerCase s')
  end.

(** [Array.prototype.join] *)
Fixpoint join (sep : string) (xs : list string) : string :=
  match xs with
  | [] => EmptyString
  | [x] => x
  | x :: rest => x +:+ sep +:+ join sep rest
  end.

(** Global replacement, [s.replace(/re/g, rep)], for a pattern that never
    matches the empty string.  [matchAt start rest] is the length of the
    match of the pattern at the current position ([0]: no match there);
    [start] tells whether the position is index 0, which is what [^]
    tests.  The scan resumes after each match. *)
Fixpoint replace_go (matchAt : bool -> string -> nat) (rep : string)
         (skip : nat) (start : bool) (s : string) : string :=
  match s with
  | EmptyString => EmptyString
  | String c s' =>
      match skip with
      | S k => replace_go matchAt rep k false s'
      | O =>
          match matchAt start s with
          | S n => rep +:+ replace_go matchAt rep n false s'
          | O => String c (replace_go matchAt rep O false s')
          end
      end
  end.

Definition replaceAll (matchAt : bool -> string -> nat) (rep s : string) : string :=
  replace_go matchAt rep 0 true s.

(** Length of the longest prefix made of units of a class: what a greedy
    [[class]+] consumes. *)
Fixpoint run_length (cls : ascii -> bool) (s : string) : nat :=
  match s with
  | EmptyString => 0
  | String c s' => if cls c then S (run_length cls s') else 0
  end.

End JS.

(** The line feed used by [lines.join("\n")]. *)
Definition LF : string := String (ascii_of_nat 10) EmptyString.

(** ** Data model (lines 15-32, 60-73) *)

Inductive Field : Type :=
| firstName | lastName | jobTitle | company | email | phone
| website | street | city | state | postalCode | country.

Record FormState : Type := mkForm {
  f_firstName : string;
  f_lastName : string;
  f_jobTitle : string;
  f_company : string;
  f_email : string;
  f_phone : string;
  f_website : string;
  f_street : string;
  f_city : string;
  f_state : string;
  f_postalCode : string;
  f_country : string
}.

(** [data[field]] *)
Definition getField (f : Field) (d : FormState) : string :=
  match f with
  | firstName => f_firstName d
  | lastName => f_lastName d
  | jobTitle => f_jobTitle d
  | company => f_company d
  | email => f_email d
  | phone => f_phone d
  | website => f_website d
  | street => f_street d
  | city => f_city d
  | state => f_state d
  | postalCode => f_postalCode d
  | country => f_country d
  end.

(** [{...previous, [field]: value}] *)
Definition setField (f : Field) (v : string) (d : FormState) : FormState :=
  match f with
  | firstName => mkForm v (f_lastName d) (f_jobTitle d) (f_company d) (f_email d) (f_phone d) (f_website d) (f_street d) (f_city d) (f_state d) (f_postalCode d) (f_country d)
  | lastName => mkForm (f_firstName d) v (f_jobTitle d) (f_company d) (f_email d) (f_phone d) (f_website d) (f_street d) (f_city d) (f_state d) (f_postalCode d) (f_country d)
  | jobTitle => mkForm (f_firstName d) (f_lastName d) v (f_company d) (f_email d) (f_phone d) (f_website d) (f_street d) (f_city d) (f_state d) (f_postalCode d) (f_country d)
  | company => mkForm (f_firstName d) (f_lastName d) (f_jobTitle d) v (f_email d) (f_phone d) (f_website d) (f_street d) (f_city d) (f_state d) (f_postalCode d) (f_country d)
  | email => mkForm (f_firstName d) (f_lastName d) (f_jobTitle d) (f_company d) v (f_phone d) (f_website d) (f_street d) (f_city d) (f_state d) (f_postalCode d) (f_country d)
  | phone => mkForm (f_firstName d) (f_lastName d) (f_jobTitle d) (f_company d) (f_email d) v (f_website d) (f_street d) (f_city d) (f_state d) (f_postalCode d) (f_country d)
  | website => mkForm (f_firstName d) (f_lastName d) (f_jobTitle d) (f_company d) (f_email d) (f_phone d) v (f_street d) (f_city d) (f_state d) (f_postalCode d) (f_country d)
  | street => mkForm (f_firstName d) (f_lastName d) (f_jobTitle d) (f_company d) (f_email d) (f_phone d) (f_website d) v (f_city d) (f_state d) (f_postalCode d) (f_country d)
  | city => mkForm (f_firstName d) (f_lastName d) (f_jobTitle d) (f_company d) (f_email d) (f_phone d) (f_website d) (f_street d) v (f_state d) (f_postalCode d) (f_country d)
  | state => mkForm (f_firstName d) (f_lastName d) (f_jobTitle d) (f_company d) (f_email d) (f_phone d) (f_website d) (f_street d) (f_city d) v (f_postalCode d) (f_country d)
  | postalCode => mkForm (f_firstName d) (f_lastName d) (f_jobTitle d) (f_company d) (f_email d) (f_phone d) (f_website d) (f_street d) (f_city d) (f_state d) v (f_country d)
  | country => mkForm (f_firstName d) (f_lastName d) (f_jobTitle d) (f_company d) (f_email d) (f_phone d) (f_website d) (f_street d) (f_city d) (f_state d) (f_postalCode d) v
  end.

Definition initialFormState : FormState :=
  mkForm "" "" "" "" "" "" "" "" "" "" "" "".

(** The keys of the schema object, in declaration order (lines 41-56). *)
Definition fields : list Field :=
  [firstName; lastName; jobTitle; company; email; phone;
   website; street; city; state; postalCode; country].

Global Instance Field_eq_dec : EqDecision Field.
Proof. solve_decision. Defined.

Definition Field_index (f : Field) : nat :=
  match f with
  | firstName => 0 | lastName => 1 | jobTitle => 2 | company => 3
  | email => 4 | phone => 5 | website => 6 | street => 7
  | city => 8 | state => 9 | postalCode => 10 | country => 11
  end.

Global Program Instance Field_countable : Countable Field :=
  inj_countable Field_index (fun n => fields !! n) _.
Next Obligation. by intros []. Qed.

(** [FormErrors]: a partial map from field to message key. *)
Abbreviation FormErrors := (gmap Field string).

(** ** buildVCard (lines 144-195) *)

(** [if (cond) lines.push(line)] *)
Definition push_if (cond : bool) (line : string) (lines : list string) : list string :=
  if cond then lines ++ [line] else lines.

Definition addressSegments (data : FormState) : list string :=
  [""; ""; f_street data; f_city data; f_state data; f_postalCode data; f_country data].

Definition vcardLines (data : FormState) : list string :=
  let formattedName := f_lastName data +:+ ";" +:+ f_firstName data in
  let displayName :=
    JS.or (JS.or (JS.trim (f_firstName data +:+ " " +:+ f_lastName data))
                 (f_firstName data))
          (f_lastName data) in
  let lines :=
    ["BEGIN:VCARD"; "VERSION:3.0"; "N:" +:+ formattedName; "FN:" +:+ displayName] in
  let lines := push_if (JS.truthy (f_jobTitle data)) ("TITLE:" +:+ f_jobTitle data) lines in
  let lines := push_if (JS.truthy (f_company data)) ("ORG:" +:+ f_company data) lines in
  let lines := push_if (JS.truthy (f_email data)) ("EMAIL;TYPE=INTERNET:" +:+ f_email data) lines in
  let lines := push_if (JS.truthy (f_phone data)) ("TEL;TYPE=CELL:" +:+ f_phone data) lines in
  let lines := push_if (JS.truthy (f_website data)) ("URL:" +:+ f_website data) lines in
  let lines :=
    push_if (existsb (fun segment => JS.truthy (JS.trim segment)) (addressSegments data))
            ("ADR;TYPE=WORK:" +:+ JS.join ";" (map JS.trim (addressSegments data)))
            lines in
  lines ++ ["END:VCARD"].

Definition buildVCard (data : FormState) : string :=
  JS.join LF (vcardLines data).

(** ** Download file name (lines 255-261) *)

Definition is_digit (c : ascii) : bool :=
  Nat.leb 48 (JS.code c) && Nat.leb (JS.code c) 57.
Definition is_lower (c : ascii) : bool :=
  Nat.leb 97 (JS.code c) && Nat.leb (JS.code c) 122.
Definition is_upper (c : ascii) : bool :=
  Nat.leb 65 (JS.code c) && Nat.leb (JS.code c) 90.
Definition is_hyphen (c : ascii) : bool := Nat.eqb (JS.code c) 45.

(** The class [[a-z0-9]] under the [i] flag: a unit belongs to it when its
    canonical (upper-case) form is that of a member, i.e. letters of either
    case and digits.  Units from 128 on never canonicalize into ASCII. *)
Definition class_alnum_i (c : ascii) : bool :=
  is_lower c || is_upper c || is_digit c.

(** [/[^a-z0-9]+/gi]: a greedy run of units outside the class. *)
Definition re_non_alnum (start : bool) (rest : string) : nat :=
  JS.run_length (fun c => negb (class_alnum_i c)) rest.

(** [/^-+|-+$/g]: at index 0 the first alternative takes the leading run of
    hyphens; elsewhere only the second alternative can match, and it does
    when the run of hyphens at the position reaches the end of the text. *)
Definition re_edge_hyphens (start : bool) (rest : string) : nat :=
  let n := JS.run_length is_hyphen rest in
  if start then n
  else if Nat.eqb n (String.length rest) then n else 0.

Definition safeName (first last : string) : string :=
  let combinedName := JS.trim (first +:+ " " +:+ last) in
  JS.replaceAll re_edge_hyphens ""
    (JS.replaceAll re_non_alnum "-"
       (JS.toLowerCase (JS.trim combinedName))).

Definition fileName (first last : string) : string :=
  let safe := safeName first last in
  if JS.truthy safe then safe +:+ "-vcard-qr.png" else "contact-vcard-qr.png".

(** *** The naming rule as the specification words it (section 4.4) *)

Module ExportNamer.

Definition default_base : string := "contact".
Definition suffix : string := "-vcard-qr".
Definition extension : string := ".png".

(** A character outside [[a-z0-9]]. *)
Definition outside (c : ascii) : bool := negb (is_lower c || is_digit c).

(** Every run of outside characters becomes a single hyphen; [in_run]
    records that the previous character already belonged to the run. *)
Fixpoint hyphenate (in_run : bool) (l : list ascii) : list ascii :=
  match l with
  | [] => []
  | c :: l' =>
      if outside c
      then (if in_run then hyphenate true l' else "-"%char :: hyphenate true l')
      else c :: hyphenate false l'
  end.

Fixpoint drop_hyphens (l : list ascii) : list ascii :=
  match l with
  | [] => []
  | c :: l' => if is_hyphen c then drop_hyphens l' else l
  end.

(** Strip leading hyphens, then (on the mirrored text) trailing ones. *)
Definition strip (l : list ascii) : list ascii :=
  rev (drop_hyphens (rev (drop_hyphens l))).

Definition slug (first last : string) : string :=
  string_of_list_ascii
    (strip (hyphenate false
       (list_ascii_of_string (JS.toLowerCase (JS.trim (first +:+ " " +:+ last)))))).

Definition nameFor (first last : string) : string :=
  let base := match slug first last with
              | EmptyString => default_base
              | s => s
              end in
  base +:+ suffix +:+ extension.

End ExportNamer.

(** ** The validation library at its boundary

    [zod] and the host's URL parser are not part of the repository.  Their
    two format checks are taken as parameters: [email_format] is the test
    behind [z.email()], and [url_check] is the check behind [z.url()], which
    yields the value the schema outputs when the text parses as an absolute
    URL. *)

Class Formats : Type := {
  email_format : string -> bool;
  url_check : string -> option string
}.

(** An issue raised while parsing: its message, and whether parsing may
    continue past it (a failed check) or is aborted (a type or literal
    mismatch). *)
Record Issue : Type := mkIssue { message : string; continue : bool }.

Record Parsed : Type := mkParsed { value : string; issues : list Issue }.

(** The schema combinators that [formSchema] is written with. *)
Inductive Schema : Type :=
| z_string                                           (* z.string() *)
| z_trim (inner : Schema)                            (* .trim() *)
| z_min (n : nat) (msg : string) (inner : Schema)    (* .min(n, msg) *)
| z_email (msg : string)                             (* z.email(msg) *)
| z_url (msg : string)                               (* z.url(msg) *)
| z_literal (lit : string)                           (* z.literal(lit) *)
| z_or (a b : Schema).                               (* a.or(b) *)

Definition dquote : string := String (ascii_of_nat 34) EmptyString.

Definition ok (p : Parsed) : bool :=
  match issues p with [] => true | _ => false end.

(** A result is aborted when one of its issues does not allow continuing. *)
Definition aborted (p : Parsed) : bool :=
  existsb (fun i => negb (continue i)) (issues p).

Section Parse.
Context `{Formats}.

(** Checks run in the order they were chained: [.trim()] overwrites the
    value, and a later [.min] sees the trimmed text.  A union returns its
    first alternative without issues; failing that, the one alternative
    that was not aborted, if there is exactly one; failing that, a single
    union issue. *)
Fixpoint parse (sch : Schema) (input : string) : Parsed :=
  match sch with
  | z_string => mkParsed input []
  | z_trim inner =>
      let r := parse inner input in
      mkParsed (JS.trim (value r)) (issues r)
  | z_min n msg inner =>
      let r := parse inner input in
      if Nat.leb n (String.length (value r)) then r
      else mkParsed (value r) (issues r ++ [mkIssue msg true])
  | z_email msg =>
      if email_format input then mkParsed input []
      else mkParsed input [mkIssue msg true]
  | z_url msg =>
      match url_check input with
      | Some out => mkParsed out []
      | None => mkParsed input [mkIssue msg true]
      end
  | z_literal lit =>
      if String.eqb input lit then mkParsed input []
      else mkParsed input
             [mkIssue ("Invalid input: expected " +:+ dquote +:+ lit +:+ dquote) false]
  | z_or a b =>
      let ra := parse a input in
      let rb := parse b input in
      if ok ra then ra
      else if ok rb then rb
      else match List.filter (fun r => negb (aborted r)) [ra; rb] with
           | [r] => r
           | _ => mkParsed input [mkIssue "Invalid input" false]
           end
  end.

(** *** formSchema (lines 39-58) *)

Definition shape (f : Field) : Schema :=
  match f with
  | firstName => z_min 1 "validation.firstNameRequired" (z_trim z_string)
  | lastName => z_trim z_string
  | jobTitle => z_trim z_string
  | company => z_trim z_string
  | email => z_or (z_email "validation.emailInvalid") (z_literal "")
  | phone => z_min 1 "validation.phoneRequired" (z_trim z_string)
  | website => z_or (z_url "validation.websiteInvalid") (z_literal "")
  | street => z_trim z_string
  | city => z_trim z_string
  | state => z_trim z_string
  | postalCode => z_trim z_string
  | country => z_trim z_string
  end.

(** The message of the first issue a field's schema raises on a value,
    [issues[0].message]; [None] when the value is accepted. *)
Definition fieldRule (f : Field) (v : string) : option string :=
  match issues (parse (shape f) v) with
  | [] => None
  | i :: _ => Some (message i)
  end.

(** Whether a field's schema accepts a value, [safeParse(value).success]. *)
Definition accepts (f : Field) (v : string) : bool := ok (parse (shape f) v).

(** An issue of the object schema: the field it belongs to (the first
    path element) and its message. *)
Definition FieldIssue : Type := (Field * string)%type.

Definition field_issues (d : FormState) (f : Field) : list FieldIssue :=
  map (fun i => (f, message i)) (issues (parse (shape f) (getField f d))).

Definition object_issues (d : FormState) : list FieldIssue :=
  flat_map (field_issues d) fields.

Definition parsed_data (d : FormState) : FormState :=
  let out f := value (parse (shape f) (getField f d)) in
  mkForm (out firstName) (out lastName) (out jobTitle) (out company)
         (out email) (out phone) (out website) (out street) (out city)
         (out state) (out postalCode) (out country).

(** [formSchema.safeParse(data)]: the issues on failure, the parsed
    output on success. *)
Definition safeParse (d : FormState) : list FieldIssue + FormState :=
  match object_issues d with
  | [] => inr (parsed_data d)
  | found => inl found
  end.

End Parse.

(** ** Component state (lines 76-84) *)

Inductive QrErrorKey : Type := generationFailed.

Definition QrErrorKey_text (k : QrErrorKey) : string :=
  match k with generationFailed => "generationFailed" end.

Record State : Type := mkState {
  formData : FormState;
  errors : FormErrors;
  qrCodeData : option string;
  isGenerating : bool;
  qrError : option QrErrorKey
}.

Definition initialState : State :=
  mkState initialFormState ∅ None false None.

(** The key handed to [translate] for the helper line (lines 82-84);
    [None] stands for the static helper text. *)
Definition helperMessageKey (s : State) : option string :=
  match qrError s with
  | Some k => Some ("messages.errors." +:+ QrErrorKey_text k)
  | None => None
  end.

(** ** The encoder at its boundary *)

Inductive ErrorCorrectionLevel : Type := EC_L | EC_M | EC_Q | EC_H.

Record QRCodeOptions : Type := mkOptions {
  errorCorrectionLevel : ErrorCorrectionLevel;
  margin : nat;
  scale : nat
}.

(** One call of [QRCode.toDataURL(text, options)]. *)
Record EncodeRequest : Type := mkRequest {
  text : string;
  options : QRCodeOptions
}.

(** How the promise settles: with a data URL, or rejected. *)
Inductive Outcome : Type :=
| Resolved (dataUrl : string)
| Rejected.

(** ** Handlers as state transformers

    A handler run updates the component state and may call the encoder; the
    calls it makes are collected in order. *)

Definition Handler (A : Type) : Type := State -> A * State * list EncodeRequest.

Definition ret {A} (a : A) : Handler A := fun s => (a, s, []).

Definition bind {A B} (m : Handler A) (k : A -> Handler B) : Handler B :=
  fun s =>
    let '(a, s1, r1) := m s in
    let '(b, s2, r2) := k a s1 in
    (b, s2, r1 ++ r2).

Declare Scope handler_scope.
Delimit Scope handler_scope with handler.
Notation "m ;; k" := (bind m (fun _ => k))
  (at level 100, k at level 200, right associativity) : handler_scope.
Local Open Scope handler_scope.

Definition setFormData (upd : FormState -> FormState) : Handler unit :=
  fun s => (tt, mkState (upd (formData s)) (errors s) (qrCodeData s) (isGenerating s) (qrError s), []).

Definition setErrors (upd : FormErrors -> FormErrors) : Handler unit :=
  fun s => (tt, mkState (formData s) (upd (errors s)) (qrCodeData s) (isGenerating s) (qrError s), []).

Definition setQrCodeData (v : option string) : Handler unit :=
  fun s => (tt, mkState (formData s) (errors s) v (isGenerating s) (qrError s), []).

Definition setIsGenerating (v : bool) : Handler unit :=
  fun s => (tt, mkState (formData s) (errors s) (qrCodeData s) v (qrError s), []).

Definition setQrError (v : option QrErrorKey) : Handler unit :=
  fun s => (tt, mkState (formData s) (errors s) (qrCodeData s) (isGenerating s) v, []).

Definition toDataURL (payload : string) (opts : QRCodeOptions) : Handler unit :=
  fun s => (tt, s, [mkRequest payload opts]).

(** State and requests after running a handler. *)
Definition after {A} (h : Handler A) (s : State) : State := snd (fst (h s)).
Definition requests {A} (h : Handler A) (s : State) : list EncodeRequest := snd (h s).
Definition result {A} (h : Handler A) (s : State) : A := fst (fst (h s)).

(** *** setFieldError (lines 86-107); a missing or empty message is falsy *)

Definition updateFieldError (field : Field) (msg : option string)
    (previous : FormErrors) : FormErrors :=
  let remove :=
    if decide (is_Some (previous !! field)) then delete field previous else previous in
  match msg with
  | Some m =>
      if JS.truthy m then
        if decide (previous !! field = Some m) then previous
        else <[field := m]> previous
      else remove
  | None => remove
  end.

Definition setFieldError (field : Field) (msg : option string) : Handler unit :=
  setErrors (updateFieldError field msg).

(** *** flatten().fieldErrors and the reduce of lines 203-210 *)

(** [fieldErrors[key] = fieldErrors[key] || []; fieldErrors[key].push(msg)],
    keys kept in insertion order. *)
Fixpoint push_message (key : Field) (msg : string)
    (acc : list (Field * list string)) : list (Field * list string) :=
  match acc with
  | [] => [(key, [msg])]
  | (k, ms) :: rest =>
      if decide (k = key) then (k, ms ++ [msg]) :: rest
      else (k, ms) :: push_message key msg rest
  end.

Definition flatten_fieldErrors (found : list (Field * string)) : list (Field * list string) :=
  fold_left (fun acc i => push_message (fst i) (snd i) acc) found [].

Definition validationErrors (fieldErrors : list (Field * list string)) : FormErrors :=
  fold_left
    (fun accumulator entry =>
       match snd entry with
       | m :: _ => <[fst entry := m]> accumulator
       | [] => accumulator
       end)
    fieldErrors ∅.

Definition encodeOptions : QRCodeOptions := mkOptions EC_M 1 6.

Section Component.
Context `{Formats}.

(** *** validateField (lines 109-124) *)
Definition validateField (field : Field) (v : string) : Handler bool :=
  let parsed := parse (shape field) v in
  if negb (ok parsed) then
    let msg := match issues parsed with
               | i :: _ => message i
               | [] => "validation.generic"
               end in
    setFieldError field (Some msg) ;; ret false
  else
    setFieldError field None ;; ret true.

(** *** handleChange, handleBlur (lines 126-142) *)
Definition handleChange (field : Field) (v : string) : Handler unit :=
  setFormData (setField field v).

Definition handleBlur (field : Field) (v : string) : Handler unit :=
  bind (validateField field v) (fun _ => ret tt).

(** *** handleSubmit (lines 197-237), up to the [await] *)
Definition handleSubmit : Handler unit :=
  fun s =>
    match safeParse (formData s) with
    | inl found =>
        setErrors (fun _ => validationErrors (flatten_fieldErrors found)) s
    | inr data =>
        (setErrors (fun _ => ∅) ;;
         setQrError None ;;
         setIsGenerating true ;;
         toDataURL (buildVCard data) encodeOptions) s
    end.

End Component.

(** *** handleSubmit after the [await]: try / catch / finally *)
Definition handleSubmit_settled (o : Outcome) : Handler unit :=
  match o with
  | Resolved dataUrl => setQrCodeData (Some dataUrl)
  | Rejected => setQrError (Some generationFailed)
  end ;;
  setIsGenerating false.

(** *** resetFormData, closeQrModal (lines 239-248) *)
Definition resetFormData : Handler unit :=
  setFormData (fun _ => initialFormState) ;;
  setErrors (fun _ => ∅) ;;
  setQrCodeData None ;;
  setQrError None.

Definition closeQrModal : Handler unit := setQrCodeData None.

(** *** downloadQrCode (lines 250-270): the link that gets clicked *)
Record DownloadLink : Type := mkLink { href : string; download : string }.

Definition downloadQrCode (s : State) : option DownloadLink :=
  match qrCodeData s with
  | Some data =>
      if JS.truthy data
      then Some (mkLink data (fileName (f_firstName (formData s)) (f_lastName (formData s))))
      else None
  | None => None
  end.

(** ** The running system: the component plus the encoder calls in flight *)

Record System : Type := mkSystem {
  view : State;
  pending : list EncodeRequest
}.

Definition initialSystem : System := mkSystem initialState [].

Inductive Event : Type :=
| Change (f : Field) (v : string)      (* typing into an input *)
| Blur (f : Field)                     (* an input loses focus *)
| Submit                               (* the form's submit event *)
| Settle (i : nat) (o : Outcome)       (* the i-th pending promise settles *)
| Reset                                (* the reset button *)
| CloseModal.                          (* backdrop or close button *)

(** What the rendered controls allow (lines 404, 413): the submit button is
    disabled while [isGenerating], and the modal with its close button is
    rendered only while an artifact is present. *)
Definition ui_enabled (e : Event) (s : State) : bool :=
  match e with
  | Submit => negb (isGenerating s)
  | CloseModal => match qrCodeData s with Some d => JS.truthy d | None => false end
  | _ => true
  end.

Definition run_handler {A} (h : Handler A) (sys : System) : System :=
  mkSystem (after h (view sys)) (pending sys ++ requests h (view sys)).

Section Run.
Context `{Formats}.

(** The handler an event runs; a [Settle] needs its promise to exist. *)
Definition fire (e : Event) (sys : System) : option System :=
  match e with
  | Change f v => Some (run_handler (handleChange f v) sys)
  | Blur f => Some (run_handler (handleBlur f (getField f (formData (view sys)))) sys)
  | Submit => Some (run_handler handleSubmit sys)
  | Settle i o =>
      match pending sys !! i with
      | Some _ => Some (mkSystem (after (handleSubmit_settled o) (view sys))
                                 (delete i (pending sys)))
      | None => None
      end
  | Reset => Some (run_handler resetFormData sys)
  | CloseModal => Some (run_handler closeQrModal sys)
  end.

(** Deliver a sequence of events through the rendered controls. *)
Fixpoint ui_run (es : list Event) (sys : System) : option System :=
  match es with
  | [] => Some sys
  | e :: es' =>
      if ui_enabled e (view sys) then
        match fire e sys with
        | Some sys' => ui_run es' sys'
        | None => None
        end
      else None
  end.

(** States reachable from the initial render by events the rendered
    controls (and the encoder) can deliver. *)
Inductive ui_reachable : System -> Prop :=
| ui_init : ui_reachable initialSystem
| ui_step e sys sys' :
    ui_reachable sys ->
    ui_enabled e (view sys) = true ->
    fire e sys = Some sys' ->
    ui_reachable sys'.

End Run.

(** ** A concrete pair of format checks, to run the handlers on examples *)

Module Sample.

Definition is_alpha (c : ascii) : bool := is_lower c || is_upper c.
Definition is_alnum (c : ascii) : bool := is_alpha c || is_digit c.
Definition is_char (x : string) (c : ascii) : bool :=
  match x with
  | String d EmptyString => Ascii.eqb c d
  | _ => false
  end.

Fixpoint all_units (p : ascii -> bool) (s : string) : bool :=
  match s with
  | EmptyString => true
  | String c s' => p c && all_units p s'
  end.

Fixpoint last_unit (s : string) : option ascii :=
  match s with
  | EmptyString => None
  | String c EmptyString => Some c
  | String _ s' => last_unit s'
  end.

Fixpoint has_double_dot (s : string) : bool :=
  match s with
  | String c ((String d _) as s') => (is_char "." c && is_char "." d) || has_double_dot s'
  | _ => false
  end.

(** Split at the first occurrence of a separator. *)
Fixpoint split_first (sep : ascii -> bool) (s : string) : option (string * string) :=
  match s with
  | EmptyString => None
  | String c s' =>
      if sep c then Some (EmptyString, s')
      else match split_first sep s' with
           | Some (a, b) => Some (String c a, b)
           | None => None
           end
  end.

(** [[A-Za-z0-9][A-Za-z0-9\-]*] *)
Definition is_label (s : string) : bool :=
  match s with
  | EmptyString => false
  | String c s' => is_alnum c && all_units (fun d => is_alnum d || is_char "-" d) s'
  end.

(** [([A-Za-z0-9][A-Za-z0-9\-]*\.)+[A-Za-z]{2,}]; [seen] tells whether a
    dotted label has already been read. *)
Fixpoint is_domain (fuel : nat) (seen : bool) (s : string) : bool :=
  match fuel with
  | O => false
  | S fuel' =>
      match split_first (is_char ".") s with
      | Some (label, rest) => is_label label && is_domain fuel' true rest
      | None => seen && all_units is_alpha s && Nat.leb 2 (String.length s)
      end
  end.

(** The default e-mail pattern of the validation library, an anchored
    regular expression made of, in order: the lookahead [(?!\.)] (no
    leading dot); the lookahead forbidding two dots in a row; a local part
    of units from [[A-Za-z0-9_'+.-]] whose last unit is from
    [[A-Za-z0-9_+-]]; one [@]; one or more dotted labels; and a top-level
    label of two or more letters. *)
Definition email_pattern (s : string) : bool :=
  match s with
  | String c _ =>
      negb (is_char "." c) && negb (has_double_dot s) &&
      match split_first (is_char "@") s with
      | Some (loc, dom) =>
          all_units (fun d => is_alnum d || is_char "_" d || is_char "'" d
                              || is_char "+" d || is_char "-" d || is_char "." d) loc
          && match last_unit loc with
             | Some d => is_alnum d || is_char "_" d || is_char "+" d || is_char "-" d
             | None => false
             end
          && is_domain (S (String.length dom)) false dom
      | None => false
      end
  | EmptyString => false
  end.

(** A stand-in for the host's URL parser: it accepts a text that opens
    with a scheme, [ALPHA (ALPHA / DIGIT / + / - / .)* ":"], followed by
    something, and outputs the text unchanged.  In particular the empty
    text is rejected, as [new URL] does. *)
Definition url_scheme (s : string) : option string :=
  match split_first (is_char ":") s with
  | Some (String c sch, String _ _) =>
      if is_alpha c
         && all_units (fun d => is_alnum d || is_char "+" d || is_char "-" d || is_char "." d) sch
      then Some s else None
  | _ => None
  end.

Definition formats : Formats :=
  {| email_format := email_pattern; url_check := url_scheme |}.

End Sample.

(** ** Vocabulary for the statements *)

(** A line that carries the work address. *)
Definition is_adr_line (l : string) : bool := String.prefix "ADR;TYPE=WORK:" l.

(** The address line as the specification spells it: two empty leading
    positions, then the five trimmed user-facing segments. *)
Definition adr_line (d : FormState) : string :=
  "ADR;TYPE=WORK:" +:+ "" +:+ ";" +:+ "" +:+ ";" +:+ JS.trim (f_street d)
  +:+ ";" +:+ JS.trim (f_city d) +:+ ";" +:+ JS.trim (f_state d)
  +:+ ";" +:+ JS.trim (f_postalCode d) +:+ ";" +:+ JS.trim (f_country d).

(** At least one of the five user-facing segments is non-empty once trimmed. *)
Definition has_address (d : FormState) : Prop :=
  JS.trim (f_street d) <> "" \/ JS.trim (f_city d) <> "" \/
  JS.trim (f_state d) <> "" \/ JS.trim (f_postalCode d) <> "" \/
  JS.trim (f_country d) <> "".

(** The first message recorded for a field in a list of issues. *)
Fixpoint first_message (f : Field) (found : list (Field * string)) : option string :=
  match found with
  | [] => None
  | (k, m) :: rest => if decide (k = f) then Some m else first_message f rest
  end.

(** The messages stored under a key of [fieldErrors] (none: the empty list). *)
Fixpoint entry (f : Field) (acc : list (Field * list string)) : list string :=
  match acc with
  | [] => []
  | (k, ms) :: rest => if decide (k = f) then ms else entry f rest
  end.

(** Single flight: the generating flag is set exactly while one encoder call
    is pending, and there is never more than one. *)
Definition single_flight (sys : System) : Prop :=
  (isGenerating (view sys) = true /\ exists r, pending sys = [r])
  \/ (isGenerating (view sys) = false /\ pending sys = []).

Definition anaPop : FormState :=
  mkForm "Ana" "Pop" "" "" "" "+40712345678" "" "" "" "" "" "".

(** ** Example data *)

(** The record of [anaPop] as typed, with blanks around the first name. *)
Definition anaDraft : FormState :=
  mkForm " Ana " "Pop" "" "" "" "+40712345678" "" "" "" "" "" "".

(** A record with no first name. *)
Definition phoneOnly : FormState :=
  mkForm "" "" "" "" "" "+40712345678" "" "" "" "" "" "".

Definition oldArtifact : string := "data:image/png;base64,AAAA".

(** An earlier artifact is still held when the draft is submitted. *)
Definition staleState : State := mkState anaDraft ∅ (Some oldArtifact) false None.

(** The system once [anaPop] has been typed and submitted. *)
Definition generatingSystem : System :=
  mkSystem (mkState anaPop ∅ None true None)
           [mkRequest (buildVCard anaPop) encodeOptions].

Definition typeAnaPop : list Event :=
  [Change firstName "Ana"; Change lastName "Pop"; Change phone "+40712345678"].

(** ** Translation lookup ([i18n.ts], lines 25-38) *)

(** A locale file as loaded: strings, objects, arrays, and the remaining
    values (numbers, booleans, null), which the lookup treats alike. *)
#[warnings="-register-all"]
Inductive Json : Type :=
| JString (s : string)
| JObject (members : list (string * Json))
| JArray (items : list Json)
| JOther.

(** [s.split(sep)] for a one-character separator: the empty text gives one
    empty piece, and every separator starts a new piece. *)
Fixpoint split (sep : ascii) (s : string) : list string :=
  match s with
  | EmptyString => [EmptyString]
  | String c s' =>
      if Ascii.eqb c sep then EmptyString :: split sep s'
      else match split sep s' with
           | piece :: pieces => String c piece :: pieces
           | [] => [String c EmptyString]
           end
  end.

(** [members[key]] for a key the object holds itself. *)
Fixpoint assoc (key : string) (members : list (string * Json)) : option Json :=
  match members with
  | [] => None
  | (k, v) :: rest => if String.eqb k key then Some v else assoc key rest
  end.

(** The property name of an array index: its decimal numeral. *)
Definition index_text (i : nat) : string :=
  NilEmpty.string_of_uint (Nat.to_uint i).

Fixpoint array_member (segment : string) (i : nat) (items : list Json) : option Json :=
  match items with
  | [] => None
  | x :: rest =>
      if String.eqb (index_text i) segment then Some x
      else array_member segment (S i) rest
  end.

(** One turn of the loop: the guard
    [typeof current === "object" && current !== null && segment in current]
    and the read [current[segment]].  Only properties the value holds itself
    are followed: an inherited property (and an array's [length]) holds a
    function, a number or the prototype, never a string, so a path through
    one ends in the fallback just as a missing property does. *)
Definition member (segment : string) (current : Json) : option Json :=
  match current with
  | JObject members => assoc segment members
  | JArray items => array_member segment 0 items
  | JString _ | JOther => None
  end.

(** The [for] loop; [None] is the early [return path]. *)
Fixpoint walk (segments : list string) (current : Json) : option Json :=
  match segments with
  | [] => Some current
  | segment :: rest =>
      match member segment current with
      | Some next => walk rest next
      | None => None
      end
  end.

Definition resolveTranslation (translation : Json) (path : string) : string :=
  match walk (split "." path) translation with
  | Some (JString s) => s
  | _ => path
  end.

(** The text an input shows under a field (lines 287-398):
    [errors.f ? translate(errors.f) : undefined], with [translate] bound to
    [resolveTranslation] by MainComponent (lines 27-30). *)
Definition shownError (translation : Json) (f : Field) (s : State) : option string :=
  match errors s !! f with
  | Some key => if JS.truthy key then Some (resolveTranslation translation key) else None
  | None => None
  end.

(** *** Vocabulary for the lookup *)

(** The object holding one leaf under a chain of keys. *)
Fixpoint nest (segments : list string) (leaf : Json) : Json :=
  match segments with
  | [] => leaf
  | k :: rest => JObject [(k, nest rest leaf)]
  end.

(** Every string stored anywhere in a value. *)
Fixpoint strings_of (t : Json) : list string :=
  match t with
  | JString s => [s]
  | JObject members =>
      (fix over (ms : list (string * Json)) : list string :=
         match ms with
         | [] => []
         | (_, v) :: rest => strings_of v ++ over rest
         end) members
  | JArray items =>
      (fix over (xs : list Json) : list string :=
         match xs with
         | [] => []
         | x :: rest => strings_of x ++ over rest
         end) items
  | JOther => []
  end.

Definition dot_free (segment : string) : Prop :=
  Forall (fun c => c <> "."%char) (list_ascii_of_string segment).

(** *** Vocabulary for the serializer and the download name *)

(** [if cond then [line] else []]: an optional line. *)
Definition opt_line (cond : bool) (line : string) : list string :=
  if cond then [line] else [].

(** The property name of a content line: the text before its first colon. *)
Fixpoint tag (line : string) : string :=
  match line with
  | EmptyString => EmptyString
  | String c rest => if Ascii.eqb c ":" then EmptyString else String c (tag rest)
  end.

(** The property names of a card, in the order of the grammar. *)
Definition tags : list string :=
  ["BEGIN"; "VERSION"; "N"; "FN"; "TITLE"; "ORG"; "EMAIL;TYPE=INTERNET";
   "TEL;TYPE=CELL"; "URL"; "ADR;TYPE=WORK"; "END"].

(** The optional single-valued properties, each with its field. *)
Definition optional_properties : list (string * Field) :=
  [("TITLE:", jobTitle); ("ORG:", company); ("EMAIL;TYPE=INTERNET:", email);
   ("TEL;TYPE=CELL:", phone); ("URL:", website)].

(** A file-system-safe base name: only [a-z], [0-9] and hyphens, no hyphen
    at either end, no two hyphens in a row. *)
Fixpoint no_double_hyphen (l : list ascii) : bool :=
  match l with
  | c :: ((d :: _) as rest) => negb (is_hyphen c && is_hyphen d) && no_double_hyphen rest
  | _ => true
  end.

Definition safe_unit (c : ascii) : bool := is_lower c || is_digit c || is_hyphen c.

Definition starts_hyphen (l : list ascii) : bool :=
  match l with
  | c :: _ => is_hyphen c
  | [] => false
  end.

Definition is_slug (s : string) : bool :=
  let l := list_ascii_of_string s in
  forallb safe_unit l
  && negb (starts_hyphen l)
  && negb (starts_hyphen (rev l))
  && no_double_hyphen l.

(** The message keys the schema can report, each with its field. *)
Definition known_errors : list (Field * string) :=
  [(firstName, "validation.firstNameRequired"); (phone, "validation.phoneRequired");
   (email, "validation.emailInvalid"); (website, "validation.websiteInvalid")].

(** A small locale, for examples. *)
Definition sampleLocale : Json :=
  JObject
    [("validation",
      JObject [("firstNameRequired", JString "First name is required");
               ("emailInvalid", JString "Enter a valid email")]);
     ("buttons", JObject [("submit", JString "Generate")])].

(** [displayName] of [buildVCard] (line 146). *)
Definition displayName (data : FormState) : string :=
  JS.or (JS.or (JS.trim (f_firstName data +:+ " " +:+ f_lastName data))
               (f_firstName data))
        (f_lastName data).

(** ** The input component ([Input.tsx], lines 11-52)

    The props the form passes and what the rendering derives from them; the
    remaining props are handed to the [input] element as they are. *)

Record InputProps : Type := mkInputProps {
  p_label : string;
  p_helperText : option string;
  p_error : option string;
  p_required : bool
}.

(** The derived parts of the rendering: the required mark, [aria-invalid],
    whether [aria-describedby] names the helper element, whether the input
    carries the error class, and the helper element, if rendered, with its
    style (error or helper) and its content. *)
Record InputView : Type := mkInputView {
  v_requiredMark : bool;
  v_ariaInvalid : option string;
  v_describedBy : bool;
  v_inputError : bool;
  v_helper : option (bool * string)
}.

(** [a ?? b] *)
Definition nullish (a b : option string) : option string :=
  match a with
  | Some x => Some x
  | None => b
  end.

(** Truthiness of an optional string: [undefined] and the empty string are
    falsy. *)
Definition opt_truthy (a : option string) : bool :=
  match a with
  | Some x => JS.truthy x
  | None => false
  end.

Definition renderInput (p : InputProps) : InputView :=
  let helperContent := nullish (p_error p) (p_helperText p) in
  mkInputView
    (p_required p)
    (if opt_truthy (p_error p) then Some "true" else None)
    (opt_truthy helperContent)
    (opt_truthy (p_error p))
    (match helperContent with
     | Some content =>
         if JS.truthy content then Some (opt_truthy (p_error p), content) else None
     | None => None
     end).

(** The props the form builds for a field (lines 281-399): the error is the
    shown error text, no helper text is passed. *)
Definition fieldInputProps (translation : Json) (label : string) (f : Field)
    (s : State) : InputProps :=
  mkInputProps label None (shownError translation f s)
    (match f with firstName | phone => true | _ => false end).

(** The system after submit is pressed on the empty form. *)
Definition emptySubmitSystem : System :=
  mkSystem
    (mkState initialFormState
       (<[firstName := "validation.firstNameRequired"]>
          {[ phone := "validation.phoneRequired" ]})
       None false None)
    [].

(** The slug of a lower-cased text, on its units (section 4.4): hyphenate
    the runs, strip both ends. *)
Definition slug_units (l : list ascii) : list ascii :=
  ExportNamer.strip (ExportNamer.hyphenate false l).

(** Whether the unit before the current position is outside [[a-z0-9]],
    after reading [x] from a position where it was [b]. *)
Definition last_outside (b : bool) (x : list ascii) : bool :=
  fold_left (fun _ c => ExportNamer.outside c) x b.

(** * Properties *)

(** ** Facts about the string primitives *)

Lemma trimEnd_idempotent s : JS.trimEnd (JS.trimEnd s) = JS.trimEnd s.
Proof.
  induction s as [|c s IH]; simpl; [reflexivity|].
  destruct (JS.trimEnd s) as [|d t] eqn:E.
  - destruct (JS.is_whitespace c) eqn:W; simpl; [reflexivity|].
    rewrite W. reflexivity.
  - change (JS.trimEnd (String c (String d t))) with
      (match JS.trimEnd (String d t) with
       | EmptyString => if JS.is_whitespace c then EmptyString else String c EmptyString
       | u => String c u
       end).
    rewrite IH. reflexivity.
Qed.

Lemma trimEnd_head c s :
  JS.is_whitespace c = false -> exists t, JS.trimEnd (String c s) = String c t.
Proof.
  intros W. simpl. destruct (JS.trimEnd s); [rewrite W|]; eauto.
Qed.

Lemma trimStart_head s :
  JS.trimStart s = EmptyString \/
  exists c t, JS.trimStart s = String c t /\ JS.is_whitespace c = false.
Proof.
  induction s as [|c s IH]; simpl; [left; reflexivity|].
  destruct (JS.is_whitespace c) eqn:W; [exact IH|].
  right. eauto.
Qed.

Lemma trim_idempotent s : JS.trim (JS.trim s) = JS.trim s.
Proof.
  unfold JS.trim.
  destruct (trimStart_head s) as [-> | (c & t & -> & W)]; [reflexivity|].
  destruct (trimEnd_head c t W) as [u E].
  rewrite E. simpl JS.trimStart. rewrite W, <- E.
  apply trimEnd_idempotent.
Qed.

Lemma truthy_false s : JS.truthy s = false <-> s = EmptyString.
Proof. destruct s; simpl; split; congruence. Qed.

Lemma truthy_true s : JS.truthy s = true <-> s <> EmptyString.
Proof. destruct s; simpl; split; congruence. Qed.

(** Lower-casing leaves no ASCII capital behind, so on lower-cased text the
    class of the case-insensitive pattern is the plain [[a-z0-9]]. *)
Lemma lower_unit_class c :
  class_alnum_i (JS.lower_unit c) = negb (ExportNamer.outside (JS.lower_unit c)).
Proof. destruct c as [[] [] [] [] [] [] [] []]; vm_compute; reflexivity. Qed.

(** ** The serializer *)

(** C5: the record Ana / Pop / +40712345678 with every other field empty
    serializes to exactly six lines, BEGIN:VCARD, VERSION:3.0, N:Pop;Ana,
    FN:Ana Pop, TEL;TYPE=CELL:+40712345678, END:VCARD, joined by single line
    feeds with nothing after the last line. *)
Theorem buildVCard_ana_pop :
  vcardLines anaPop =
    ["BEGIN:VCARD"; "VERSION:3.0"; "N:Pop;Ana"; "FN:Ana Pop";
     "TEL;TYPE=CELL:+40712345678"; "END:VCARD"]
  /\ buildVCard anaPop =
       "BEGIN:VCARD" +:+ LF +:+ "VERSION:3.0" +:+ LF +:+ "N:Pop;Ana" +:+ LF +:+
       "FN:Ana Pop" +:+ LF +:+ "TEL;TYPE=CELL:+40712345678" +:+ LF +:+ "END:VCARD".
Proof. split; reflexivity. Qed.

Lemma address_test (d : FormState) :
  existsb (fun segment => JS.truthy (JS.trim segment)) (addressSegments d) = true
  <-> has_address d.
Proof.
  unfold addressSegments, has_address. simpl existsb.
  rewrite !orb_true_iff, !truthy_true. intuition congruence.
Qed.

Lemma address_join (d : FormState) :
  "ADR;TYPE=WORK:" +:+ JS.join ";" (map JS.trim (addressSegments d)) = adr_line d.
Proof. reflexivity. Qed.

(** The lines pushed before the address test never look like an address
    line, whatever the fields hold. *)
Lemma vcardLines_split (d : FormState) :
  exists pre,
    Forall (fun l => is_adr_line l = false) pre /\
    vcardLines d =
      pre ++ (if existsb (fun segment => JS.truthy (JS.trim segment)) (addressSegments d)
              then [adr_line d] else [])
          ++ ["END:VCARD"].
Proof.
  exists (push_if (JS.truthy (f_website d)) ("URL:" +:+ f_website d)
         (push_if (JS.truthy (f_phone d)) ("TEL;TYPE=CELL:" +:+ f_phone d)
         (push_if (JS.truthy (f_email d)) ("EMAIL;TYPE=INTERNET:" +:+ f_email d)
         (push_if (JS.truthy (f_company d)) ("ORG:" +:+ f_company d)
         (push_if (JS.truthy (f_jobTitle d)) ("TITLE:" +:+ f_jobTitle d)
            ["BEGIN:VCARD"; "VERSION:3.0";
             "N:" +:+ (f_lastName d +:+ ";" +:+ f_firstName d);
             "FN:" +:+ JS.or (JS.or (JS.trim (f_firstName d +:+ " " +:+ f_lastName d))
                                    (f_firstName d)) (f_lastName d)]))))).
  split.
  - unfold push_if.
    destruct (JS.truthy (f_jobTitle d)), (JS.truthy (f_company d)),
      (JS.truthy (f_email d)), (JS.truthy (f_phone d)), (JS.truthy (f_website d));
      cbn [app]; repeat constructor.
  - unfold vcardLines. rewrite address_join.
    unfold push_if at 1.
    destruct (existsb _ (addressSegments d)).
    + rewrite <- app_assoc. reflexivity.
    + reflexivity.
Qed.

(** C6: among the lines [buildVCard] joins, an ADR;TYPE=WORK line occurs
    exactly when one of street, city, state, postalCode, country is
    non-empty after trimming; and any such line is the two empty leading
    positions followed by the five trimmed segments, each separated by a
    semicolon and emitted even when empty. *)
Theorem adr_line_iff_address (d : FormState) :
  ((exists l, In l (vcardLines d) /\ is_adr_line l = true) <-> has_address d)
  /\ (forall l, In l (vcardLines d) -> is_adr_line l = true -> l = adr_line d)
  /\ buildVCard d = JS.join LF (vcardLines d).
Proof.
  assert (Hjoin : buildVCard d = JS.join LF (vcardLines d)) by reflexivity.
  revert Hjoin.
  destruct (vcardLines_split d) as (pre & Hpre & ->). intros Hjoin.
  rewrite Forall_forall in Hpre.
  assert (Hin : forall l,
    In l (pre ++ (if existsb (fun segment => JS.truthy (JS.trim segment)) (addressSegments d)
                  then [adr_line d] else []) ++ ["END:VCARD"]) ->
    is_adr_line l = true ->
    l = adr_line d /\
    existsb (fun segment => JS.truthy (JS.trim segment)) (addressSegments d) = true).
  { intros l Hl Hadr. rewrite !in_app_iff in Hl. destruct Hl as [Hl | [Hl | Hl]].
    - apply list_elem_of_In, Hpre in Hl. congruence.
    - destruct (existsb _ (addressSegments d)); simpl in Hl; [|tauto].
      destruct Hl as [<- | []]. auto.
    - simpl in Hl. destruct Hl as [<- | []]. discriminate Hadr. }
  split; [split|split].
  - intros (l & Hl & Hadr). apply address_test. apply (Hin l Hl Hadr).
  - intros Ha. apply address_test in Ha. rewrite Ha.
    exists (adr_line d). split; [|reflexivity].
    rewrite !in_app_iff. right. left. left. reflexivity.
  - intros l Hl Hadr. apply (Hin l Hl Hadr).
  - exact Hjoin.
Qed.

(** ** The download name *)

Lemma replace_go_skip_all matchAt rep s : forall k b,
  String.length s <= k -> JS.replace_go matchAt rep k b s = EmptyString.
Proof.
  induction s as [|c s IH]; intros k b Hk; simpl in *; [reflexivity|].
  destruct k as [|k]; [lia|]. apply IH. lia.
Qed.

Lemma run_length_le cls s : JS.run_length cls s <= String.length s.
Proof. induction s as [|c s IH]; simpl; [lia|]. destruct (cls c); lia. Qed.

Lemma run_length_full (l : list ascii) :
  Nat.eqb (JS.run_length is_hyphen (string_of_list_ascii l))
          (String.length (string_of_list_ascii l))
  = forallb is_hyphen l.
Proof.
  induction l as [|c l IH]; simpl; [reflexivity|].
  destruct (is_hyphen c); simpl; [exact IH|reflexivity].
Qed.

Lemma drop_hyphens_all (l : list ascii) :
  forallb is_hyphen l = true -> ExportNamer.drop_hyphens l = [].
Proof.
  induction l as [|c l IH]; simpl; [reflexivity|].
  destruct (is_hyphen c); simpl; [exact IH|discriminate].
Qed.

Lemma drop_hyphens_app (l1 l2 : list ascii) :
  ExportNamer.drop_hyphens (l1 ++ l2) =
  if forallb is_hyphen l1 then ExportNamer.drop_hyphens l2
  else ExportNamer.drop_hyphens l1 ++ l2.
Proof.
  induction l1 as [|c l1 IH]; simpl; [reflexivity|].
  destruct (is_hyphen c); simpl; [exact IH|reflexivity].
Qed.

Lemma forallb_rev {A} (p : A -> bool) (l : list A) :
  forallb p (rev l) = forallb p l.
Proof.
  induction l as [|c l IH]; simpl; [reflexivity|].
  rewrite forallb_app, IH. simpl. rewrite andb_true_r. apply andb_comm.
Qed.

(** Stripping at the far end, read from the front: a text made of hyphens
    only vanishes, otherwise its first character stays. *)
Lemma strip_trailing_cons c (l : list ascii) :
  rev (ExportNamer.drop_hyphens (rev (c :: l))) =
  if forallb is_hyphen (c :: l) then []
  else c :: rev (ExportNamer.drop_hyphens (rev l)).
Proof.
  simpl rev at 2. rewrite drop_hyphens_app, forallb_rev. simpl forallb.
  destruct (forallb is_hyphen l) eqn:Hall.
  - rewrite (drop_hyphens_all (rev l)) by (rewrite forallb_rev; exact Hall).
    simpl. destruct (is_hyphen c); reflexivity.
  - rewrite andb_false_r, rev_app_distr. reflexivity.
Qed.

Lemma re_edge_hyphens_inner (l : list ascii) :
  re_edge_hyphens false (string_of_list_ascii l)
  = if forallb is_hyphen l then String.length (string_of_list_ascii l) else 0.
Proof.
  unfold re_edge_hyphens. rewrite <- run_length_full.
  destruct (Nat.eqb_spec (JS.run_length is_hyphen (string_of_list_ascii l))
                         (String.length (string_of_list_ascii l))); congruence.
Qed.

(** Away from index 0 the pattern only ever removes a final run. *)
Lemma edge_hyphens_inner (l : list ascii) :
  JS.replace_go re_edge_hyphens "" 0 false (string_of_list_ascii l)
  = string_of_list_ascii (rev (ExportNamer.drop_hyphens (rev l))).
Proof.
  induction l as [|c l IH]; [reflexivity|].
  rewrite strip_trailing_cons.
  change (string_of_list_ascii (c :: l)) with (String c (string_of_list_ascii l)).
  cbn [JS.replace_go].
  change (String c (string_of_list_ascii l)) with (string_of_list_ascii (c :: l)).
  rewrite re_edge_hyphens_inner.
  destruct (forallb is_hyphen (c :: l)) eqn:Hall.
  - cbn [string_of_list_ascii String.length].
    change ("" +:+ ?x) with x.
    apply replace_go_skip_all. lia.
  - rewrite IH. reflexivity.
Qed.

Lemma edge_hyphens_skip (l : list ascii) :
  JS.replace_go re_edge_hyphens ""
    (JS.run_length is_hyphen (string_of_list_ascii l)) false (string_of_list_ascii l)
  = JS.replace_go re_edge_hyphens "" 0 false
      (string_of_list_ascii (ExportNamer.drop_hyphens l)).
Proof.
  induction l as [|c l IH]; [reflexivity|].
  cbn [string_of_list_ascii JS.run_length ExportNamer.drop_hyphens].
  destruct (is_hyphen c) eqn:Hc.
  - cbn [JS.replace_go]. exact IH.
  - reflexivity.
Qed.

Lemma edge_hyphens_strip (l : list ascii) :
  JS.replaceAll re_edge_hyphens "" (string_of_list_ascii l)
  = string_of_list_ascii (ExportNamer.strip l).
Proof.
  unfold JS.replaceAll, ExportNamer.strip.
  destruct l as [|c l]; [reflexivity|].
  change (string_of_list_ascii (c :: l)) with (String c (string_of_list_ascii l)).
  cbn [JS.replace_go re_edge_hyphens JS.run_length ExportNamer.drop_hyphens].
  destruct (is_hyphen c) eqn:Hc.
  - change ("" +:+ ?x) with x. rewrite edge_hyphens_skip. apply edge_hyphens_inner.
  - rewrite edge_hyphens_inner, strip_trailing_cons. simpl forallb. rewrite Hc.
    reflexivity.
Qed.

Lemma non_alnum_hyphenate (l : list ascii) :
  Forall (fun c => class_alnum_i c = negb (ExportNamer.outside c)) l ->
  (forall b, JS.replace_go re_non_alnum "-" 0 b (string_of_list_ascii l)
             = string_of_list_ascii (ExportNamer.hyphenate false l))
  /\ JS.replace_go re_non_alnum "-"
       (JS.run_length (fun c => negb (class_alnum_i c)) (string_of_list_ascii l))
       false (string_of_list_ascii l)
     = string_of_list_ascii (ExportNamer.hyphenate true l).
Proof.
  induction 1 as [|c l Hc _ [IH0 IHrun]]; [split; reflexivity|].
  split; [intros b|];
    cbn [string_of_list_ascii JS.replace_go JS.run_length ExportNamer.hyphenate
         re_non_alnum];
    rewrite Hc, negb_involutive;
    destruct (ExportNamer.outside c); cbn [negb string_of_list_ascii].
  - rewrite IHrun. reflexivity.
  - rewrite IH0. reflexivity.
  - exact IHrun.
  - rewrite IH0. reflexivity.
Qed.

Lemma lowered_units s :
  Forall (fun c => class_alnum_i c = negb (ExportNamer.outside c))
         (list_ascii_of_string (JS.toLowerCase s)).
Proof.
  induction s as [|c s IH]; simpl; constructor; [apply lower_unit_class|exact IH].
Qed.

Lemma non_alnum_replaceAll (l : list ascii) :
  Forall (fun c => class_alnum_i c = negb (ExportNamer.outside c)) l ->
  JS.replaceAll re_non_alnum "-" (string_of_list_ascii l)
  = string_of_list_ascii (ExportNamer.hyphenate false l).
Proof. intros Hl. apply (proj1 (non_alnum_hyphenate l Hl) true). Qed.

Lemma safeName_slug first last : safeName first last = ExportNamer.slug first last.
Proof.
  unfold safeName, ExportNamer.slug. rewrite trim_idempotent.
  pose proof (lowered_units (JS.trim (first +:+ " " +:+ last))) as Hl.
  pose proof (string_of_list_ascii_of_string
                (JS.toLowerCase (JS.trim (first +:+ " " +:+ last)))) as Ht.
  revert Hl Ht.
  generalize (list_ascii_of_string (JS.toLowerCase (JS.trim (first +:+ " " +:+ last)))).
  intros l Hl <-.
  rewrite (non_alnum_replaceAll l Hl).
  apply edge_hyphens_strip.
Qed.

(** C7: the download name is the slug of the specification (combine as
    first-space-last, trim, lower-case, one hyphen per run of characters
    outside a-z0-9, no hyphen at either end) followed by -vcard-qr.png, with
    the base name contact when the slug is empty; X and Y give
    x-y-vcard-qr.png, and empty names give contact-vcard-qr.png. *)
Theorem fileName_is_nameFor :
  (forall first last, fileName first last = ExportNamer.nameFor first last)
  /\ fileName "X" "Y" = "x-y-vcard-qr.png"
  /\ fileName "" "" = "contact-vcard-qr.png"
  /\ (forall s data,
        qrCodeData s = Some data -> JS.truthy data = true ->
        downloadQrCode s =
          Some (mkLink data (ExportNamer.nameFor (f_firstName (formData s))
                                                  (f_lastName (formData s))))).
Proof.
  assert (Hname : forall first last, fileName first last = ExportNamer.nameFor first last).
  { intros first last. unfold fileName, ExportNamer.nameFor.
    rewrite safeName_slug. destruct (ExportNamer.slug first last); reflexivity. }
  split; [exact Hname|]. split; [reflexivity|]. split; [reflexivity|].
  intros s data Hd Ht. unfold downloadQrCode. rewrite Hd, Ht, Hname. reflexivity.
Qed.

(** ** Collecting the issues of a failed parse *)

Lemma entry_push f k m acc :
  entry f (push_message k m acc) =
  if decide (k = f) then entry f acc ++ [m] else entry f acc.
Proof.
  induction acc as [|[k' ms] acc IH]; simpl.
  - destruct (decide (k = f)); reflexivity.
  - destruct (decide (k' = k)) as [->|Hk]; simpl.
    + destruct (decide (k = f)); reflexivity.
    + destruct (decide (k' = f)) as [->|Hf].
      * destruct (decide (k = f)); congruence.
      * exact IH.
Qed.

Lemma keys_push k m acc :
  map fst (push_message k m acc) =
  if decide (k ∈ map fst acc) then map fst acc else map fst acc ++ [k].
Proof.
  induction acc as [|[k' ms] acc IH]; simpl.
  - destruct (decide (k ∈ [])) as [Hin|_]; [inversion Hin|reflexivity].
  - destruct (decide (k' = k)) as [->|Hk]; simpl.
    + destruct (decide (k ∈ k :: map fst acc)) as [_|Hn]; [reflexivity|].
      exfalso. apply Hn. left.
    + rewrite IH.
      destruct (decide (k ∈ map fst acc)) as [Hin|Hn];
        destruct (decide (k ∈ k' :: map fst acc)) as [Hin'|Hn']; try reflexivity.
      * exfalso. apply Hn'. right. exact Hin.
      * exfalso. apply elem_of_cons in Hin' as [->|Hin']; [congruence|tauto].
Qed.

Lemma keys_push_NoDup k m acc :
  NoDup (map fst acc) -> NoDup (map fst (push_message k m acc)).
Proof.
  intros Hnd. rewrite keys_push.
  destruct (decide (k ∈ map fst acc)) as [_|Hn]; [exact Hnd|].
  apply NoDup_app. split; [exact Hnd|]. split.
  - intros x Hx Hk. apply list_elem_of_singleton in Hk as ->. tauto.
  - apply NoDup_singleton.
Qed.

Lemma flatten_entries found : forall acc f,
  NoDup (map fst acc) ->
  let fe := fold_left (fun acc i => push_message (fst i) (snd i) acc) found acc in
  NoDup (map fst fe)
  /\ entry f fe = entry f acc ++ map snd (List.filter (fun i => bool_decide (fst i = f)) found).
Proof.
  induction found as [|[k m] found IH]; intros acc f Hnd; simpl.
  - split; [exact Hnd|]. rewrite app_nil_r. reflexivity.
  - destruct (IH (push_message k m acc) f (keys_push_NoDup k m acc Hnd)) as [Hnd' He].
    split; [exact Hnd'|]. simpl in He. rewrite He, entry_push.
    destruct (decide (k = f)) as [->|Hk].
    + rewrite bool_decide_eq_true_2 by reflexivity. simpl.
      rewrite <- app_assoc. reflexivity.
    + rewrite bool_decide_eq_false_2 by exact Hk. reflexivity.
Qed.

Lemma entry_absent f fe : f ∉ map fst fe -> entry f fe = [].
Proof.
  induction fe as [|[k ms] fe IH]; simpl; intros Hn; [reflexivity|].
  destruct (decide (k = f)) as [->|Hk].
  - exfalso. apply Hn. left.
  - apply IH. intros Hin. apply Hn. right. exact Hin.
Qed.

Lemma reduce_lookup fe : forall (acc : FormErrors) f,
  NoDup (map fst fe) ->
  fold_left
    (fun accumulator entry =>
       match snd entry with
       | m :: _ => <[fst entry := m]> accumulator
       | [] => accumulator
       end) fe acc !! f
  = match entry f fe with
    | m :: _ => Some m
    | [] => acc !! f
    end.
Proof.
  induction fe as [|[k ms] fe IH]; intros acc f Hnd; simpl; [reflexivity|].
  apply NoDup_cons in Hnd as [Hk Hnd].
  rewrite IH by exact Hnd.
  destruct (decide (k = f)) as [->|Hkf].
  - rewrite (entry_absent f fe Hk).
    destruct ms as [|m ms]; [reflexivity|]. apply lookup_insert_eq.
  - destruct (entry f fe); [|reflexivity].
    destruct ms as [|m ms]; [reflexivity|]. apply lookup_insert_ne. exact Hkf.
Qed.

Lemma first_message_filter f found :
  match map snd (List.filter (fun i => bool_decide (fst i = f)) found) with
  | m :: _ => Some m
  | [] => None
  end = first_message f found.
Proof.
  induction found as [|[k m] found IH]; simpl; [reflexivity|].
  destruct (decide (k = f)) as [->|Hk].
  - rewrite bool_decide_eq_true_2 by reflexivity. reflexivity.
  - rewrite bool_decide_eq_false_2 by exact Hk. exact IH.
Qed.

(** The map built at lines 203-210 holds, for each field, the first message
    recorded for it. *)
Lemma validationErrors_lookup found f :
  validationErrors (flatten_fieldErrors found) !! f = first_message f found.
Proof.
  unfold validationErrors, flatten_fieldErrors.
  destruct (flatten_entries found [] f (NoDup_nil_2)) as [Hnd He].
  simpl in Hnd, He. rewrite reduce_lookup by exact Hnd.
  rewrite He, lookup_empty. apply first_message_filter.
Qed.

(** ** Validation *)

Lemma fields_complete (f : Field) : f ∈ fields.
Proof. destruct f; unfold fields; repeat first [apply list_elem_of_here | apply list_elem_of_further]. Qed.

Lemma fields_NoDup : NoDup fields.
Proof. apply (bool_decide_unpack _). vm_compute. exact I. Qed.

Section Validation.
Context `{Formats}.

(** What each field's schema reports, rule by rule. *)
Lemma fieldRule_cases f v :
  fieldRule f v =
  match f with
  | firstName =>
      if JS.truthy (JS.trim v) then None else Some "validation.firstNameRequired"
  | phone =>
      if JS.truthy (JS.trim v) then None else Some "validation.phoneRequired"
  | email =>
      if email_format v || String.eqb v "" then None
      else Some "validation.emailInvalid"
  | website =>
      match url_check v with
      | Some _ => None
      | None => if String.eqb v "" then None else Some "validation.websiteInvalid"
      end
  | _ => None
  end.
Proof.
  destruct f; unfold fieldRule, shape; cbn [parse issues value]; try reflexivity.
  - destruct (JS.trim v); reflexivity.
  - destruct (email_format v); [reflexivity|].
    destruct (String.eqb v ""); reflexivity.
  - destruct (JS.trim v); reflexivity.
  - destruct (url_check v); [reflexivity|].
    destruct (String.eqb v ""); reflexivity.
Qed.

Lemma fieldRule_truthy f v m : fieldRule f v = Some m -> JS.truthy m = true.
Proof.
  rewrite fieldRule_cases.
  destruct f; try discriminate;
    repeat match goal with
           | |- context [if ?b then _ else _] => destruct b
           | |- context [match url_check ?x with _ => _ end] => destruct (url_check x)
           end;
    intros [= <-] || discriminate; reflexivity.
Qed.

Lemma accepts_rule f v : accepts f v = true <-> fieldRule f v = None.
Proof.
  unfold accepts, ok, fieldRule.
  destruct (issues (parse (shape f) v)); split; congruence.
Qed.

Lemma object_issues_nil d :
  object_issues d = [] <-> forall f, accepts f (getField f d) = true.
Proof.
  unfold object_issues. split.
  - intros Hnil f. pose proof (fields_complete f) as Hf. revert Hnil Hf.
    induction fields as [|g l IH]; simpl; intros Hnil Hf; [inversion Hf|].
    apply app_eq_nil in Hnil as [Hg Hl].
    apply elem_of_cons in Hf as [->|Hf]; [|exact (IH Hl Hf)].
    unfold field_issues in Hg. apply map_eq_nil in Hg.
    unfold accepts, ok. rewrite Hg. reflexivity.
  - intros Hall. induction fields as [|g l IH]; simpl; [reflexivity|].
    rewrite IH, app_nil_r. unfold field_issues.
    specialize (Hall g). unfold accepts, ok in Hall.
    destruct (issues (parse (shape g) (getField g d))); [reflexivity|discriminate].
Qed.

Lemma first_message_fields d f : forall l,
  NoDup l ->
  first_message f (flat_map (field_issues d) l) =
  if decide (f ∈ l) then fieldRule f (getField f d) else None.
Proof.
  assert (Hhead : forall g (found : list Issue) rest,
    first_message f (map (fun i => (g, message i)) found ++ rest) =
    if decide (g = f)
    then match found with i :: _ => Some (message i) | [] => first_message f rest end
    else first_message f rest).
  { intros g found rest. induction found as [|i found IH]; simpl.
    - destruct (decide (g = f)); reflexivity.
    - destruct (decide (g = f)); [reflexivity|exact IH]. }
  induction l as [|g l IH]; intros Hnd; simpl.
  - destruct (decide (f ∈ [])) as [Hin|_]; [inversion Hin|reflexivity].
  - apply NoDup_cons in Hnd as [Hg Hnd]. unfold field_issues at 1.
    rewrite Hhead, (IH Hnd).
    destruct (decide (g = f)) as [->|Hgf].
    + destruct (decide (f ∈ f :: l)) as [_|Hn]; [|exfalso; apply Hn; left].
      destruct (decide (f ∈ l)) as [Hin|_]; [tauto|].
      unfold fieldRule. destruct (issues (parse (shape f) (getField f d))); reflexivity.
    + destruct (decide (f ∈ l)) as [Hin|Hn];
        destruct (decide (f ∈ g :: l)) as [Hin'|Hn']; try reflexivity.
      * exfalso. apply Hn'. right. exact Hin.
      * exfalso. apply elem_of_cons in Hin' as [->|Hin']; [congruence|tauto].
Qed.

Lemma first_message_object d f :
  first_message f (object_issues d) = fieldRule f (getField f d).
Proof.
  unfold object_issues. rewrite (first_message_fields d f fields fields_NoDup).
  destruct (decide (f ∈ fields)) as [_|Hn]; [reflexivity|].
  destruct (Hn (fields_complete f)).
Qed.

Lemma safeParse_inl d found :
  safeParse d = inl found -> found = object_issues d /\ object_issues d <> [].
Proof.
  unfold safeParse. destruct (object_issues d); [discriminate|].
  intros [= <-]. split; [reflexivity|discriminate].
Qed.

Lemma safeParse_inr d data :
  safeParse d = inr data <-> data = parsed_data d /\ object_issues d = [].
Proof.
  unfold safeParse. destruct (object_issues d); split.
  - intros [= <-]. auto.
  - intros [-> _]. reflexivity.
  - discriminate.
  - intros [_ ?]. discriminate.
Qed.

Lemma accepts_trimmed f v :
  f <> email -> f <> website -> accepts f (JS.trim v) = accepts f v.
Proof.
  intros He Hw. unfold accepts, ok.
  destruct f; try congruence; unfold shape; cbn [parse issues value];
    rewrite ?trim_idempotent; reflexivity.
Qed.

(** C2, as the code has it: the plain text fields are trimmed before their
    rule applies (first name and phone are accepted exactly when non-empty
    after trimming, the other text fields always), whereas email and
    website are checked untrimmed: each is accepted exactly when the raw
    value is the empty string or passes the library's format check.  The
    single-field check returns this verdict, and the whole record parses
    exactly when every field is accepted. *)
Theorem validation_rules_per_field :
  (forall f v s, result (validateField f v) s = accepts f v)
  /\ (forall d, (exists data, safeParse d = inr data)
                <-> forall f, accepts f (getField f d) = true)
  /\ (forall f v, f <> email -> f <> website -> accepts f (JS.trim v) = accepts f v)
  /\ (forall v, accepts firstName v = true <-> JS.trim v <> "")
  /\ (forall v, accepts phone v = true <-> JS.trim v <> "")
  /\ (forall v, accepts email v = true <-> v = "" \/ email_format v = true)
  /\ (forall v, accepts website v = true <-> v = "" \/ is_Some (url_check v))
  /\ (forall f v, f <> firstName -> f <> phone -> f <> email -> f <> website ->
                  accepts f v = true).
Proof.
  repeat apply conj.
  - intros f v s. unfold validateField, accepts.
    destruct (ok (parse (shape f) v)); reflexivity.
  - intros d. rewrite <- object_issues_nil. split.
    + intros [data Hd]. apply safeParse_inr in Hd. tauto.
    + intros Hnil. exists (parsed_data d). apply safeParse_inr. auto.
  - exact accepts_trimmed.
  - intros v. rewrite accepts_rule, fieldRule_cases, <- truthy_true.
    destruct (JS.truthy (JS.trim v)); split; congruence.
  - intros v. rewrite accepts_rule, fieldRule_cases, <- truthy_true.
    destruct (JS.truthy (JS.trim v)); split; congruence.
  - intros v. rewrite accepts_rule, fieldRule_cases.
    destruct (email_format v); simpl; [tauto|].
    destruct (String.eqb_spec v ""); split; try tauto; try congruence.
    intros [?|?]; congruence.
  - intros v. rewrite accepts_rule, fieldRule_cases.
    destruct (url_check v) as [out|]; [split; eauto|].
    destruct (String.eqb_spec v ""); split; try tauto; try congruence.
    intros [?|[? ?]]; congruence.
  - intros f v ? ? ? ?. apply accepts_rule. rewrite fieldRule_cases.
    destruct f; congruence.
Qed.

Lemma updateFieldError_lookup field msg (previous : FormErrors) g :
  updateFieldError field msg previous !! g =
  if decide (g = field)
  then match msg with
       | Some m => if JS.truthy m then Some m else None
       | None => None
       end
  else previous !! g.
Proof.
  assert (Hremove :
    (if decide (is_Some (previous !! field)) then delete field previous else previous) !! g
    = if decide (g = field) then None else previous !! g).
  { destruct (decide (is_Some (previous !! field))) as [Hs|Hn];
      destruct (decide (g = field)) as [->|Hg].
    - apply lookup_delete_eq.
    - apply lookup_delete_ne. congruence.
    - destruct (previous !! field); [destruct Hn; eauto|reflexivity].
    - reflexivity. }
  unfold updateFieldError. destruct msg as [m|]; [|exact Hremove].
  destruct (JS.truthy m); [|exact Hremove].
  destruct (decide (previous !! field = Some m)) as [He|Hne];
    destruct (decide (g = field)) as [->|Hg]; try reflexivity.
  - exact He.
  - apply lookup_insert_eq.
  - apply lookup_insert_ne. congruence.
Qed.

Lemma after_setFieldError {A} field msg (a : A) s :
  errors (after (setFieldError field msg ;; ret a) s)
  = updateFieldError field msg (errors s).
Proof. reflexivity. Qed.

Lemma validateField_rest field v s :
  formData (after (validateField field v) s) = formData s
  /\ qrCodeData (after (validateField field v) s) = qrCodeData s
  /\ isGenerating (after (validateField field v) s) = isGenerating s
  /\ qrError (after (validateField field v) s) = qrError s
  /\ requests (validateField field v) s = [].
Proof.
  unfold validateField. destruct (negb (ok (parse (shape field) v))); repeat split.
Qed.

(** C10: checking one field leaves the entries of all other fields as they
    were; the field's own entry becomes its message key when its rule fails
    and is absent when the rule passes.  Nothing else of the state changes
    and no encoder call is made. *)
Theorem validateField_frame (field : Field) (v : string) (s : State) :
  (forall g, g <> field ->
     errors (after (validateField field v) s) !! g = errors s !! g)
  /\ errors (after (validateField field v) s) !! field = fieldRule field v
  /\ formData (after (validateField field v) s) = formData s
  /\ qrCodeData (after (validateField field v) s) = qrCodeData s
  /\ isGenerating (after (validateField field v) s) = isGenerating s
  /\ qrError (after (validateField field v) s) = qrError s
  /\ requests (validateField field v) s = [].
Proof.
  assert (Herr : forall g,
    errors (after (validateField field v) s) !! g =
    if decide (g = field) then fieldRule field v else errors s !! g).
  { intros g. pose proof (fieldRule_truthy field v) as Ht.
    unfold validateField, fieldRule, ok in *.
    destruct (issues (parse (shape field) v)) as [|i rest]; cbn [negb];
      rewrite after_setFieldError, updateFieldError_lookup; [reflexivity|].
    rewrite (Ht _ eq_refl). reflexivity. }
  split; [|split].
  - intros g Hg. rewrite Herr. destruct (decide (g = field)); congruence.
  - rewrite Herr. destruct (decide (field = field)); congruence.
  - apply validateField_rest.
Qed.

Lemma failing_field d :
  object_issues d <> [] -> exists f, is_Some (fieldRule f (getField f d)).
Proof.
  unfold object_issues. induction fields as [|g l IH]; simpl; [congruence|].
  intros Hne. unfold field_issues at 1 in Hne.
  destruct (issues (parse (shape g) (getField g d))) as [|i rest] eqn:Hi.
  - apply IH. exact Hne.
  - exists g. unfold fieldRule. rewrite Hi. eauto.
Qed.

(** C4: when the record does not parse, submit only replaces the error map:
    no encoder call is made, and artifact, generation error, generating flag
    and record stay as they were.  The new map holds, for every field, the
    message key of its failing rule and nothing for a field that passes, so
    every failing field is reported, once.  With the first name empty, the
    phone present and email and website acceptable, its only entry is
    validation.firstNameRequired under firstName. *)
Theorem invalid_submit_reports_each_field (s : State) (found : list FieldIssue) :
  safeParse (formData s) = inl found ->
  handleSubmit s =
    (tt,
     mkState (formData s) (validationErrors (flatten_fieldErrors found))
             (qrCodeData s) (isGenerating s) (qrError s),
     [])
  /\ (forall f, errors (after handleSubmit s) !! f = fieldRule f (getField f (formData s)))
  /\ (exists f, is_Some (fieldRule f (getField f (formData s))))
  /\ (JS.trim (f_firstName (formData s)) = "" ->
      JS.trim (f_phone (formData s)) <> "" ->
      accepts email (f_email (formData s)) = true ->
      accepts website (f_website (formData s)) = true ->
      errors (after handleSubmit s) = {[ firstName := "validation.firstNameRequired" ]}).
Proof.
  intros Hparse.
  assert (Hrun : handleSubmit s =
    (tt, mkState (formData s) (validationErrors (flatten_fieldErrors found))
                 (qrCodeData s) (isGenerating s) (qrError s), [])).
  { unfold handleSubmit. rewrite Hparse. reflexivity. }
  destruct (safeParse_inl _ _ Hparse) as [-> Hne].
  assert (Hlookup : forall f,
    errors (after handleSubmit s) !! f = fieldRule f (getField f (formData s))).
  { intros f. unfold after. rewrite Hrun. simpl.
    rewrite validationErrors_lookup. apply first_message_object. }
  split; [exact Hrun|]. split; [exact Hlookup|]. split; [exact (failing_field _ Hne)|].
  intros Hfirst Hphone Hemail Hweb. apply map_eq. intros f. rewrite Hlookup.
  apply accepts_rule in Hemail, Hweb. apply truthy_true in Hphone.
  destruct f; simpl getField;
    try (rewrite lookup_singleton_ne by discriminate);
    try (rewrite fieldRule_cases; reflexivity); try assumption.
  - rewrite lookup_singleton_eq, fieldRule_cases, Hfirst. reflexivity.
  - rewrite fieldRule_cases, Hphone. reflexivity.
Qed.

End Validation.

(** ** Orchestration: submit, settle, reset *)

Section Orchestration.
Context `{Formats}.

Lemma handleSubmit_valid s data :
  safeParse (formData s) = inr data ->
  handleSubmit s =
    (tt, mkState (formData s) ∅ (qrCodeData s) true None,
     [mkRequest (buildVCard data) encodeOptions]).
Proof. intros Hparse. unfold handleSubmit. rewrite Hparse. reflexivity. Qed.

Lemma handleSubmit_invalid s found :
  safeParse (formData s) = inl found ->
  handleSubmit s =
    (tt, mkState (formData s) (validationErrors (flatten_fieldErrors found))
                 (qrCodeData s) (isGenerating s) (qrError s), []).
Proof. intros Hparse. unfold handleSubmit. rewrite Hparse. reflexivity. Qed.

Lemma parsed_text_field d f :
  f <> email -> f <> website ->
  getField f (parsed_data d) = JS.trim (getField f d).
Proof.
  intros He Hw. destruct f; try congruence; try reflexivity;
    unfold parsed_data, shape; cbn [parse getField f_firstName f_phone value];
    destruct (Nat.leb 1 _); reflexivity.
Qed.

Lemma parsed_email d :
  accepts email (f_email d) = true -> f_email (parsed_data d) = f_email d.
Proof.
  unfold accepts, ok, parsed_data, shape. cbn [parse f_email getField].
  destruct (email_format (f_email d)); [reflexivity|].
  destruct (String.eqb (f_email d) ""); [reflexivity|discriminate].
Qed.

Lemma parsed_website d :
  accepts website (f_website d) = true ->
  f_website (parsed_data d) =
    match url_check (f_website d) with Some out => out | None => f_website d end.
Proof.
  unfold accepts, ok, parsed_data, shape. cbn [parse f_website getField].
  destruct (url_check (f_website d)); [reflexivity|].
  destruct (String.eqb (f_website d) ""); [reflexivity|discriminate].
Qed.

(** C3, as the code has it: for a record that parses, submit clears the
    field-error map and the generation-error key and sets the generating
    flag, keeps the artifact it finds (the artifact is only replaced when
    the request later succeeds), and makes exactly one encoder call, with
    options M / margin 1 / scale 6, on the serialization of the parsed
    record: the text fields trimmed, email unchanged, website as the URL
    check outputs it. *)
Theorem valid_submit_starts_generation (s : State) (data : FormState) :
  safeParse (formData s) = inr data ->
  handleSubmit s =
    (tt, mkState (formData s) ∅ (qrCodeData s) true None,
     [mkRequest (buildVCard data) (mkOptions EC_M 1 6)])
  /\ (forall f, f <> email -> f <> website ->
        getField f data = JS.trim (getField f (formData s)))
  /\ f_email data = f_email (formData s)
  /\ f_website data =
       match url_check (f_website (formData s)) with
       | Some out => out
       | None => f_website (formData s)
       end.
Proof.
  intros Hparse. split; [exact (handleSubmit_valid s data Hparse)|].
  apply safeParse_inr in Hparse as [-> Hnil].
  pose proof (proj1 (object_issues_nil _) Hnil) as Hall.
  split; [intros f; apply parsed_text_field|]. split.
  - apply parsed_email, (Hall email).
  - apply parsed_website, (Hall website).
Qed.

Lemma settled_run o s :
  handleSubmit_settled o s =
    (tt,
     match o with
     | Resolved dataUrl => mkState (formData s) (errors s) (Some dataUrl) false (qrError s)
     | Rejected => mkState (formData s) (errors s) (qrCodeData s) false (Some generationFailed)
     end,
     []).
Proof. destruct o; reflexivity. Qed.

(** C8: when the encoder call of a valid submit is rejected, the state ends
    with the error key generationFailed (shown as
    messages.errors.generationFailed) and the generating flag cleared; the
    artifact is the one held before the submit, and settling makes no
    encoder call, so nothing is retried. *)
Theorem rejected_request_reports_failure (s : State) (data : FormState) :
  safeParse (formData s) = inr data ->
  isGenerating (after handleSubmit s) = true
  /\ qrError (after (handleSubmit_settled Rejected) (after handleSubmit s))
     = Some generationFailed
  /\ helperMessageKey (after (handleSubmit_settled Rejected) (after handleSubmit s))
     = Some "messages.errors.generationFailed"
  /\ isGenerating (after (handleSubmit_settled Rejected) (after handleSubmit s)) = false
  /\ qrCodeData (after (handleSubmit_settled Rejected) (after handleSubmit s))
     = qrCodeData s
  /\ requests (handleSubmit_settled Rejected) (after handleSubmit s) = []
  /\ (forall s1, qrCodeData (after (handleSubmit_settled Rejected) s1) = qrCodeData s1
                 /\ requests (handleSubmit_settled Rejected) s1 = []).
Proof.
  intros Hparse. unfold after, requests.
  rewrite (handleSubmit_valid s data Hparse). repeat split.
Qed.

Lemma handleBlur_rest f v s :
  isGenerating (after (handleBlur f v) s) = isGenerating s
  /\ requests (handleBlur f v) s = [].
Proof.
  destruct (validateField_rest f v s) as (_ & _ & Hg & _ & Hr).
  unfold handleBlur, after, requests, bind, ret in *.
  destruct (validateField f v s) as [[b s1] r1]. simpl in *.
  subst r1. auto.
Qed.

(** The rendered controls keep the system single-flight. *)
Lemma ui_reachable_single_flight sys : ui_reachable sys -> single_flight sys.
Proof.
  induction 1 as [|e sys sys' _ IH Hen Hfire]; [right; split; reflexivity|].
  destruct sys as [s p]. unfold single_flight in *. simpl in IH.
  destruct e; simpl in Hen, Hfire.
  - injection Hfire as <-. simpl. rewrite app_nil_r. exact IH.
  - injection Hfire as <-. unfold run_handler. simpl.
    destruct (handleBlur_rest f (getField f (formData s)) s) as [-> ->].
    rewrite app_nil_r. exact IH.
  - injection Hfire as <-. apply negb_true_iff in Hen.
    destruct IH as [[Hg _]|[_ ->]]; [congruence|].
    unfold run_handler, after, requests. simpl.
    destruct (safeParse (formData s)) as [found|data] eqn:Hparse.
    + rewrite (handleSubmit_invalid s found Hparse). simpl. right. auto.
    + rewrite (handleSubmit_valid s data Hparse). simpl. left. eauto.
  - destruct (p !! i) as [r|] eqn:Hi; [|discriminate].
    injection Hfire as <-. unfold after. rewrite settled_run. simpl.
    right. split; [destruct o; reflexivity|].
    destruct IH as [[_ [r' ->]]|[_ ->]]; [|discriminate].
    destruct i; [reflexivity|discriminate].
  - injection Hfire as <-. simpl. rewrite app_nil_r. exact IH.
  - injection Hfire as <-. simpl. rewrite app_nil_r. exact IH.
Qed.

Lemma ui_run_reachable es : forall sys sys',
  ui_reachable sys -> ui_run es sys = Some sys' -> ui_reachable sys'.
Proof.
  induction es as [|e es IH]; simpl; intros sys sys' Hreach Hrun.
  - injection Hrun as <-. exact Hreach.
  - destruct (ui_enabled e (view sys)) eqn:Hen; [|discriminate].
    destruct (fire e sys) as [sys1|] eqn:Hfire; [|discriminate].
    eapply IH; [|exact Hrun]. eapply ui_step; eassumption.
Qed.

(** C1, as the code has it: handleSubmit carries no in-flight guard, so run
    in a Generating state it makes a further encoder call on a record that
    parses and replaces the error map on one that does not.  Re-entrancy is
    excluded by the submit button instead,
    which is disabled while the generating flag is set: in every state
    reachable through the rendered controls at most one encoder call is
    pending, and the flag is set exactly while one is. *)
Theorem single_flight_by_disabled_submit :
  (forall s data,
     isGenerating s = true -> safeParse (formData s) = inr data ->
     requests handleSubmit s = [mkRequest (buildVCard data) encodeOptions])
  /\ (forall s found,
       isGenerating s = true -> safeParse (formData s) = inl found ->
       errors (after handleSubmit s) = validationErrors (flatten_fieldErrors found))
  /\ (forall s, isGenerating s = true -> ui_enabled Submit s = false)
  /\ (forall sys, ui_reachable sys ->
        length (pending sys) <= 1
        /\ (isGenerating (view sys) = true <-> length (pending sys) = 1)).
Proof.
  split; [|split; [|split]].
  - intros s data _ Hparse. unfold requests.
    rewrite (handleSubmit_valid s data Hparse). reflexivity.
  - intros s found _ Hparse. unfold after.
    rewrite (handleSubmit_invalid s found Hparse). reflexivity.
  - intros s Hg. simpl. rewrite Hg. reflexivity.
  - intros sys Hreach.
    destruct (ui_reachable_single_flight sys Hreach) as [[Hg [r Hp]]|[Hg Hp]];
      rewrite Hg, Hp; simpl; split; try lia; split; congruence.
Qed.

(** C9, as the code has it: the generating flag is cleared whenever the
    encoder call settles, resolved or rejected; reset leaves the flag as it
    finds it.  In every state reachable through the rendered controls in
    which the flag is set, one call is pending, it can settle either way,
    and settling clears the flag with nothing left pending. *)
Theorem generating_flag_cleared_on_settle :
  (forall o s, isGenerating (after (handleSubmit_settled o) s) = false)
  /\ (forall s, isGenerating (after resetFormData s) = isGenerating s)
  /\ (forall sys, ui_reachable sys -> isGenerating (view sys) = true ->
        exists r, pending sys = [r]
          /\ forall o, exists sys',
               fire (Settle 0 o) sys = Some sys'
               /\ isGenerating (view sys') = false
               /\ pending sys' = []).
Proof.
  split; [|split].
  - intros o s. unfold after. rewrite settled_run. destruct o; reflexivity.
  - reflexivity.
  - intros sys Hreach Hg.
    destruct (ui_reachable_single_flight sys Hreach) as [[_ [r Hp]]|[Hg' _]];
      [|congruence].
    exists r. split; [exact Hp|]. intros o. simpl. rewrite Hp. simpl.
    eexists. split; [reflexivity|]. simpl. split; [|reflexivity].
    unfold after. rewrite settled_run. destruct o; reflexivity.
Qed.

End Orchestration.

(** ** More on the serializer *)

(** The card as one concatenation: the four fixed lines, each optional line
    when its test holds, the closing line. *)
Lemma vcardLines_normal (d : FormState) :
  vcardLines d =
    ["BEGIN:VCARD"; "VERSION:3.0";
     "N:" +:+ (f_lastName d +:+ ";" +:+ f_firstName d); "FN:" +:+ displayName d]
    ++ opt_line (JS.truthy (f_jobTitle d)) ("TITLE:" +:+ f_jobTitle d)
    ++ opt_line (JS.truthy (f_company d)) ("ORG:" +:+ f_company d)
    ++ opt_line (JS.truthy (f_email d)) ("EMAIL;TYPE=INTERNET:" +:+ f_email d)
    ++ opt_line (JS.truthy (f_phone d)) ("TEL;TYPE=CELL:" +:+ f_phone d)
    ++ opt_line (JS.truthy (f_website d)) ("URL:" +:+ f_website d)
    ++ opt_line (existsb (fun segment => JS.truthy (JS.trim segment)) (addressSegments d))
                (adr_line d)
    ++ ["END:VCARD"].
Proof.
  unfold vcardLines, push_if, opt_line. rewrite address_join.
  destruct (JS.truthy (f_jobTitle d)), (JS.truthy (f_company d)),
    (JS.truthy (f_email d)), (JS.truthy (f_phone d)), (JS.truthy (f_website d)),
    (existsb _ (addressSegments d)); reflexivity.
Qed.

(** X1: whatever the fields hold, the property names of the lines come in the
    order of the grammar, none twice: the card opens with BEGIN, VERSION, N
    and FN, closes with END, and has at most six lines in between. *)
Theorem vcardLines_tags_in_order (d : FormState) :
  sublist (map tag (vcardLines d)) tags
  /\ exists middle,
       vcardLines d =
         ["BEGIN:VCARD"; "VERSION:3.0";
          "N:" +:+ (f_lastName d +:+ ";" +:+ f_firstName d); "FN:" +:+ displayName d]
         ++ middle ++ ["END:VCARD"]
       /\ length middle <= 6.
Proof.
  rewrite vcardLines_normal. split.
  - unfold opt_line, adr_line, tags.
    destruct (JS.truthy (f_jobTitle d)), (JS.truthy (f_company d)),
      (JS.truthy (f_email d)), (JS.truthy (f_phone d)), (JS.truthy (f_website d)),
      (existsb _ (addressSegments d));
      cbn [app map]; cbv [tag String.append Ascii.eqb Bool.eqb];
      repeat first [apply sublist_nil | apply sublist_skip | apply sublist_cons].
  - exists (opt_line (JS.truthy (f_jobTitle d)) ("TITLE:" +:+ f_jobTitle d)
      ++ opt_line (JS.truthy (f_company d)) ("ORG:" +:+ f_company d)
      ++ opt_line (JS.truthy (f_email d)) ("EMAIL;TYPE=INTERNET:" +:+ f_email d)
      ++ opt_line (JS.truthy (f_phone d)) ("TEL;TYPE=CELL:" +:+ f_phone d)
      ++ opt_line (JS.truthy (f_website d)) ("URL:" +:+ f_website d)
      ++ opt_line (existsb (fun segment => JS.truthy (JS.trim segment))
                           (addressSegments d))
                  (adr_line d)).
    split.
    + rewrite <- !app_assoc. reflexivity.
    + rewrite !length_app. unfold opt_line.
      destruct (JS.truthy (f_jobTitle d)), (JS.truthy (f_company d)),
        (JS.truthy (f_email d)), (JS.truthy (f_phone d)), (JS.truthy (f_website d)),
        (existsb _ (addressSegments d)); simpl; lia.
Qed.

Lemma append_cons c x y : String c x +:+ y = String c (x +:+ y).
Proof. reflexivity. Qed.

Lemma prefix_append p x : String.prefix p (p +:+ x) = true.
Proof.
  induction p as [|c p IH]; [destruct x; reflexivity|].
  rewrite append_cons. simpl. destruct (ascii_dec c c); [exact IH|congruence].
Qed.

Lemma filter_opt_line (P : string -> bool) b x :
  List.filter P (opt_line b x) = if P x then opt_line b x else [].
Proof. destruct b; simpl; destruct (P x); reflexivity. Qed.

(** X2: for each optional single-valued property (TITLE, ORG, EMAIL, TEL, URL)
    the lines that carry it are exactly the one line made of the prefix and
    the field's text when the field is not the empty string, and none
    otherwise; the text is emitted as it stands, blanks included. *)
Theorem optional_line_iff_field (d : FormState) (prefix : string) (f : Field) :
  In (prefix, f) optional_properties ->
  List.filter (String.prefix prefix) (vcardLines d)
  = opt_line (JS.truthy (getField f d)) (prefix +:+ getField f d).
Proof.
  intros Hin. rewrite vcardLines_normal, !List.filter_app, !filter_opt_line.
  simpl in Hin.
  destruct Hin as [[= <- <-]|[[= <- <-]|[[= <- <-]|[[= <- <-]|[[= <- <-]|[]]]]]];
    simpl getField; rewrite prefix_append;
    match goal with |- _ = opt_line ?b _ => destruct b end; reflexivity.
Qed.

(** ** Trimmed text *)

Lemma trimEnd_app x y :
  JS.trimEnd (x +:+ y) =
  match JS.trimEnd y with
  | EmptyString => JS.trimEnd x
  | t => x +:+ t
  end.
Proof.
  induction x as [|c x IH].
  - change ("" +:+ y) with y. destruct (JS.trimEnd y); reflexivity.
  - rewrite append_cons. cbn [JS.trimEnd]. rewrite IH.
    destruct (JS.trimEnd y) as [|a t]; [reflexivity|].
    rewrite append_cons. destruct x; reflexivity.
Qed.

Lemma trimStart_length s : String.length (JS.trimStart s) <= String.length s.
Proof.
  induction s as [|c s IH]; simpl; [lia|].
  destruct (JS.is_whitespace c); simpl; lia.
Qed.

Lemma trim_fixed_ends s :
  JS.trim s = s -> JS.trimStart s = s /\ JS.trimEnd s = s.
Proof.
  intros Hs. split.
  - unfold JS.trim in Hs.
    destruct (trimStart_head s) as [E | (c & t & E & W)]; rewrite E in Hs.
    + simpl in Hs. subst s. reflexivity.
    + destruct (trimEnd_head c t W) as [u Hu]. rewrite Hu in Hs. subst s.
      simpl. rewrite W. reflexivity.
  - rewrite <- Hs at 1. unfold JS.trim. rewrite trimEnd_idempotent. exact Hs.
Qed.

Lemma trimStart_fixed_head s :
  JS.trimStart s = s -> s <> EmptyString ->
  exists c t, s = String c t /\ JS.is_whitespace c = false.
Proof.
  destruct s as [|c t]; [congruence|]. intros Hs _. simpl in Hs.
  destruct (JS.is_whitespace c) eqn:W; [|eauto].
  pose proof (trimStart_length t) as Hlen. rewrite Hs in Hlen. simpl in Hlen. lia.
Qed.

(** Joining two trimmed names with a blank and trimming again: the first
    name alone when the last is empty, both otherwise. *)
Lemma trim_joined_names a b :
  JS.trim a = a -> JS.trim b = b -> a <> EmptyString ->
  JS.trim (a +:+ " " +:+ b) = if JS.truthy b then a +:+ " " +:+ b else a.
Proof.
  intros Ha Hb Hne.
  destruct (trim_fixed_ends a Ha) as [Hsa Hea].
  destruct (trim_fixed_ends b Hb) as [_ Heb].
  destruct (trimStart_fixed_head a Hsa Hne) as (c & t & -> & W).
  unfold JS.trim. rewrite append_cons. cbn [JS.trimStart]. rewrite W.
  rewrite <- append_cons, trimEnd_app.
  change (" " +:+ b) with (String " " b). cbn [JS.trimEnd]. rewrite Heb.
  destruct b as [|d b']; [exact Hea|reflexivity].
Qed.

Lemma or_truthy a b : JS.truthy a = true -> JS.or a b = a.
Proof. unfold JS.or. intros ->. reflexivity. Qed.

(** ** More on the handlers *)

Section Handlers.
Context `{Formats}.

(** X3: the card of a valid submit is built from the trimmed names: the first
    name is never empty, the N line is last;first, the formatted name is the
    first name alone when the last name is blank and first-space-last
    otherwise, and the TEL line carries the trimmed phone. *)
Theorem valid_payload_names (d data : FormState) :
  safeParse d = inr data ->
  JS.trim (f_firstName d) <> ""
  /\ displayName data =
       (if JS.truthy (JS.trim (f_lastName d))
        then JS.trim (f_firstName d) +:+ " " +:+ JS.trim (f_lastName d)
        else JS.trim (f_firstName d))
  /\ In ("N:" +:+ (JS.trim (f_lastName d) +:+ ";" +:+ JS.trim (f_firstName d)))
        (vcardLines data)
  /\ In ("FN:" +:+ displayName data) (vcardLines data)
  /\ In ("TEL;TYPE=CELL:" +:+ JS.trim (f_phone d)) (vcardLines data).
Proof.
  intros Hparse. apply safeParse_inr in Hparse as [-> Hnil].
  pose proof (proj1 (object_issues_nil _) Hnil) as Hall.
  assert (Hfirst : JS.truthy (JS.trim (f_firstName d)) = true).
  { pose proof (Hall firstName) as Hf. apply accepts_rule in Hf.
    rewrite fieldRule_cases in Hf. simpl getField in Hf.
    destruct (JS.truthy (JS.trim (f_firstName d))); [reflexivity|discriminate]. }
  assert (Hphone : JS.truthy (JS.trim (f_phone d)) = true).
  { pose proof (Hall phone) as Hf. apply accepts_rule in Hf.
    rewrite fieldRule_cases in Hf. simpl getField in Hf.
    destruct (JS.truthy (JS.trim (f_phone d))); [reflexivity|discriminate]. }
  assert (Ef : f_firstName (parsed_data d) = JS.trim (f_firstName d))
    by (apply (parsed_text_field d firstName); discriminate).
  assert (El : f_lastName (parsed_data d) = JS.trim (f_lastName d))
    by (apply (parsed_text_field d lastName); discriminate).
  assert (Ep : f_phone (parsed_data d) = JS.trim (f_phone d))
    by (apply (parsed_text_field d phone); discriminate).
  assert (Hname : displayName (parsed_data d) =
    if JS.truthy (JS.trim (f_lastName d))
    then JS.trim (f_firstName d) +:+ " " +:+ JS.trim (f_lastName d)
    else JS.trim (f_firstName d)).
  { unfold displayName. rewrite Ef, El.
    rewrite trim_joined_names
      by (try apply trim_idempotent; apply truthy_true; exact Hfirst).
    rewrite !or_truthy; [reflexivity| |].
    - destruct (JS.truthy (JS.trim (f_lastName d))); [|exact Hfirst].
      destruct (JS.trim (f_firstName d)); [discriminate|reflexivity].
    - rewrite or_truthy.
      + destruct (JS.truthy (JS.trim (f_lastName d))); [|exact Hfirst].
        destruct (JS.trim (f_firstName d)); [discriminate|reflexivity].
      + destruct (JS.truthy (JS.trim (f_lastName d))); [|exact Hfirst].
        destruct (JS.trim (f_firstName d)); [discriminate|reflexivity]. }
  split; [apply truthy_true; exact Hfirst|]. split; [exact Hname|].
  rewrite vcardLines_normal, Ef, El, Ep, Hphone. unfold opt_line at 4.
  repeat split.
  - right. right. left. reflexivity.
  - right. right. right. left. reflexivity.
  - rewrite !in_app_iff. do 4 right. left. left. reflexivity.
Qed.

(** X4: typing into an input stores the text under that field and nothing
    else: every other field, the error map (a stale message stays until the
    next check), the artifact and both flags are untouched, and no encoder
    call is made. *)
Theorem handleChange_sets_one_field (f : Field) (v : string) (s : State) :
  getField f (formData (after (handleChange f v) s)) = v
  /\ (forall g, g <> f ->
        getField g (formData (after (handleChange f v) s)) = getField g (formData s))
  /\ errors (after (handleChange f v) s) = errors s
  /\ qrCodeData (after (handleChange f v) s) = qrCodeData s
  /\ isGenerating (after (handleChange f v) s) = isGenerating s
  /\ qrError (after (handleChange f v) s) = qrError s
  /\ requests (handleChange f v) s = [].
Proof.
  split; [destruct f; reflexivity|].
  split; [intros g Hg; destruct f, g; try congruence; reflexivity|].
  repeat split.
Qed.

Lemma after_validateField f v s :
  after (validateField f v) s =
  mkState (formData s) (updateFieldError f (fieldRule f v) (errors s))
          (qrCodeData s) (isGenerating s) (qrError s).
Proof.
  unfold validateField, fieldRule, ok.
  destruct (issues (parse (shape f) v)); reflexivity.
Qed.

Lemma fieldRule_own f v :
  match fieldRule f v with
  | Some m => if JS.truthy m then Some m else None
  | None => None
  end = fieldRule f v.
Proof.
  destruct (fieldRule f v) as [m|] eqn:E; [|reflexivity].
  rewrite (fieldRule_truthy f v m E). reflexivity.
Qed.

(** X5: field checks are independent: checks of two different fields commute,
    and of two checks of the same field the later one decides, so repeating
    a check changes nothing. *)
Theorem validateField_checks_compose :
  (forall f g v w s, f <> g ->
     after (validateField g w) (after (validateField f v) s)
     = after (validateField f v) (after (validateField g w) s))
  /\ (forall f v w s,
        after (validateField f w) (after (validateField f v) s)
        = after (validateField f w) s)
  /\ (forall f v s,
        after (validateField f v) (after (validateField f v) s)
        = after (validateField f v) s).
Proof.
  assert (Hsame : forall f v w s,
    after (validateField f w) (after (validateField f v) s)
    = after (validateField f w) s).
  { intros f v w s. rewrite !after_validateField. simpl. f_equal.
    apply map_eq. intros k. rewrite !updateFieldError_lookup.
    destruct (decide (k = f)); reflexivity. }
  split; [|split; [exact Hsame|intros f v s; apply Hsame]].
  intros f g v w s Hfg. rewrite !after_validateField. simpl. f_equal.
  apply map_eq. intros k. rewrite !updateFieldError_lookup.
  destruct (decide (k = g)), (decide (k = f)); congruence.
Qed.

Lemma handleSubmit_errors s f :
  errors (after handleSubmit s) !! f = fieldRule f (getField f (formData s)).
Proof.
  unfold after. destruct (safeParse (formData s)) as [found|data] eqn:Hparse.
  - rewrite (handleSubmit_invalid s found Hparse). simpl.
    destruct (safeParse_inl _ _ Hparse) as [-> _].
    rewrite validationErrors_lookup. apply first_message_object.
  - rewrite (handleSubmit_valid s data Hparse). simpl. rewrite lookup_empty.
    apply safeParse_inr in Hparse as [_ Hnil].
    symmetry. apply accepts_rule. apply (proj1 (object_issues_nil _) Hnil).
Qed.

(** X6: submit and blur agree: whatever the record, the entry submit leaves
    for a field is the entry a check of that field alone, on its current
    text, would leave, starting from any error map. *)
Theorem submit_agrees_with_field_checks (s s' : State) (f : Field) :
  errors (after handleSubmit s) !! f
  = errors (after (validateField f (getField f (formData s))) s') !! f.
Proof.
  rewrite handleSubmit_errors, after_validateField. simpl.
  rewrite updateFieldError_lookup.
  destruct (decide (f = f)); [|congruence].
  symmetry. apply fieldRule_own.
Qed.

(** X7: submitting right after a reset never reaches the encoder: the emptied
    record fails on exactly the two required fields, whatever the format
    checks of the library. *)
Theorem submit_after_reset (s : State) :
  handleSubmit (after resetFormData s) =
    (tt,
     mkState initialFormState
       (<[firstName := "validation.firstNameRequired"]>
          {[ phone := "validation.phoneRequired" ]})
       None (isGenerating s) None,
     []).
Proof.
  assert (Hparse : safeParse initialFormState =
    inl [(firstName, "validation.firstNameRequired");
         (phone, "validation.phoneRequired")]).
  { unfold safeParse, object_issues, fields, field_issues, shape, initialFormState.
    cbn [flat_map getField f_firstName f_lastName f_jobTitle f_company f_email
         f_phone f_website f_street f_city f_state f_postalCode f_country parse].
    destruct (email_format ""), (url_check ""); reflexivity. }
  change (after resetFormData s)
    with (mkState initialFormState ∅ None (isGenerating s) None).
  rewrite (handleSubmit_invalid (mkState initialFormState ∅ None (isGenerating s) None)
             _ Hparse).
  assert (Hmap :
    validationErrors
      (flatten_fieldErrors [(firstName, "validation.firstNameRequired");
                            (phone, "validation.phoneRequired")])
    = <[firstName := "validation.firstNameRequired"]>
        {[ phone := "validation.phoneRequired" ]}).
  { apply map_eq. intros k. rewrite validationErrors_lookup.
    destruct k; reflexivity. }
  rewrite Hmap. reflexivity.
Qed.

Lemma fieldRule_known f v m : fieldRule f v = Some m -> In (f, m) known_errors.
Proof.
  rewrite fieldRule_cases. unfold known_errors.
  destruct f; try discriminate;
    repeat match goal with
           | |- context [if ?b then _ else _] => destruct b
           | |- context [match url_check ?x with _ => _ end] => destruct (url_check x)
           end;
    intros [= <-] || discriminate; simpl; tauto.
Qed.

Lemma reachable_errors_known (sys : System) :
  ui_reachable sys ->
  forall f m, errors (view sys) !! f = Some m -> In (f, m) known_errors.
Proof.
  induction 1 as [|e sys sys' _ IH Hen Hfire].
  - intros f m Hm. simpl in Hm. rewrite lookup_empty in Hm. discriminate.
  - destruct sys as [s p]. simpl in IH.
    destruct e; simpl in Hfire.
    + injection Hfire as <-. exact IH.
    + injection Hfire as <-. intros g m. unfold run_handler, view.
      assert (Ha : after (handleBlur f (getField f (formData s))) s
                   = after (validateField f (getField f (formData s))) s).
      { unfold handleBlur, after, bind, ret.
        destruct (validateField f (getField f (formData s)) s) as [[b s1] r1].
        reflexivity. }
      rewrite Ha, after_validateField. simpl.
      rewrite updateFieldError_lookup.
      destruct (decide (g = f)) as [->|_]; [|apply IH].
      rewrite fieldRule_own. apply fieldRule_known.
    + injection Hfire as <-. intros g m. unfold run_handler, view.
      rewrite handleSubmit_errors. apply fieldRule_known.
    + destruct (p !! i); [|discriminate]. injection Hfire as <-.
      unfold after. rewrite settled_run. destruct o; exact IH.
    + injection Hfire as <-. intros g m Hm. simpl in Hm.
      rewrite lookup_empty in Hm. discriminate.
    + injection Hfire as <-. exact IH.
Qed.

Lemma known_error_truthy f m : In (f, m) known_errors -> JS.truthy m = true.
Proof.
  unfold known_errors. simpl.
  intros [[= _ <-]|[[= _ <-]|[[= _ <-]|[[= _ <-]|[]]]]]; reflexivity.
Qed.

(** X8: in every state reachable through the rendered controls, an entry of
    the error map is one of the four message keys of the schema, stored
    under its own field; so the fallback key validation.generic is never
    stored, the eight free-text fields never show an error, and the text
    shown under a field is the translation of its key. *)
Theorem stored_errors_are_known (sys : System) :
  ui_reachable sys ->
  forall f m, errors (view sys) !! f = Some m ->
    In (f, m) known_errors
    /\ m <> "validation.generic"
    /\ forall translation,
         shownError translation f (view sys) = Some (resolveTranslation translation m).
Proof.
  intros Hreach f m Hm. pose proof (reachable_errors_known sys Hreach f m Hm) as Hin.
  split; [exact Hin|]. split.
  - unfold known_errors in Hin. simpl in Hin.
    destruct Hin as [[= _ <-]|[[= _ <-]|[[= _ <-]|[[= _ <-]|[]]]]]; discriminate.
  - intros translation. unfold shownError.
    rewrite Hm, (known_error_truthy f m Hin). reflexivity.
Qed.

(** X9: in every state reachable through the rendered controls, a generation
    error is never held while a request is in flight: submit clears it
    before it sets the flag, and only the settling of the request, which
    clears the flag, can set it again. *)
Theorem no_generation_error_while_generating (sys : System) :
  ui_reachable sys ->
  isGenerating (view sys) = true -> qrError (view sys) = None.
Proof.
  induction 1 as [|e sys sys' Hreach IH Hen Hfire]; [discriminate|].
  destruct sys as [s p]. simpl in IH.
  destruct e; simpl in Hen, Hfire.
  - injection Hfire as <-. exact IH.
  - injection Hfire as <-. unfold run_handler, view.
    assert (Ha : after (handleBlur f (getField f (formData s))) s
                 = after (validateField f (getField f (formData s))) s).
    { unfold handleBlur, after, bind, ret.
      destruct (validateField f (getField f (formData s)) s) as [[b s1] r1].
      reflexivity. }
    rewrite Ha, after_validateField. exact IH.
  - injection Hfire as <-. apply negb_true_iff in Hen.
    unfold run_handler, view, after.
    destruct (safeParse (formData s)) as [found|data] eqn:Hparse.
    + rewrite (handleSubmit_invalid s found Hparse). simpl. congruence.
    + rewrite (handleSubmit_valid s data Hparse). reflexivity.
  - destruct (p !! i); [|discriminate]. injection Hfire as <-.
    unfold after. rewrite settled_run. destruct o; discriminate.
  - injection Hfire as <-. reflexivity.
  - injection Hfire as <-. exact IH.
Qed.

(** X10: when the request of a valid submit resolves with a non-empty data URL,
    the state holds that artifact with no error and the flag cleared; the
    download link points at the artifact and is named after the names as
    typed; closing the modal drops the artifact and with it the download. *)
Theorem resolved_request_offers_download (s : State) (data : FormState) (dataUrl : string) :
  safeParse (formData s) = inr data ->
  JS.truthy dataUrl = true ->
  after (handleSubmit_settled (Resolved dataUrl)) (after handleSubmit s)
    = mkState (formData s) ∅ (Some dataUrl) false None
  /\ downloadQrCode (after (handleSubmit_settled (Resolved dataUrl)) (after handleSubmit s))
     = Some (mkLink dataUrl
               (fileName (f_firstName (formData s)) (f_lastName (formData s))))
  /\ ui_enabled CloseModal
       (after (handleSubmit_settled (Resolved dataUrl)) (after handleSubmit s)) = true
  /\ downloadQrCode
       (after closeQrModal
          (after (handleSubmit_settled (Resolved dataUrl)) (after handleSubmit s)))
     = None.
Proof.
  intros Hparse Hurl. unfold after at 2 4 6 9.
  rewrite (handleSubmit_valid s data Hparse). simpl.
  unfold downloadQrCode, after. simpl. rewrite Hurl. repeat split.
Qed.

End Handlers.

(** ** The shape of the download name *)

Lemma inside_not_hyphen c : ExportNamer.outside c = false -> is_hyphen c = false.
Proof. destruct c as [[] [] [] [] [] [] [] []]; vm_compute; congruence. Qed.

Lemma inside_safe c : ExportNamer.outside c = false -> safe_unit c = true.
Proof.
  unfold ExportNamer.outside, safe_unit. intros Hc.
  apply negb_false_iff in Hc. rewrite Hc. reflexivity.
Qed.

Lemma no_double_hyphen_cons c l :
  no_double_hyphen (c :: l)
  = negb (is_hyphen c && starts_hyphen l) && no_double_hyphen l.
Proof. destruct l; simpl; [rewrite andb_false_r|]; reflexivity. Qed.

Lemma hyphenate_shape l :
  (forall b, forallb safe_unit (ExportNamer.hyphenate b l) = true)
  /\ no_double_hyphen (ExportNamer.hyphenate false l) = true
  /\ no_double_hyphen (ExportNamer.hyphenate true l) = true
  /\ starts_hyphen (ExportNamer.hyphenate true l) = false.
Proof.
  induction l as [|c l (IHsafe & IHf & IHt & IHs)]; [repeat split|].
  cbn [ExportNamer.hyphenate]. destruct (ExportNamer.outside c) eqn:Hc.
  - repeat split; try assumption.
    + intros []; [apply IHsafe|]. simpl. apply IHsafe.
    + rewrite no_double_hyphen_cons, IHs, IHt, andb_false_r. reflexivity.
  - pose proof (inside_not_hyphen c Hc) as Hh. repeat split.
    + intros b. simpl. rewrite (inside_safe c Hc). apply IHsafe.
    + rewrite no_double_hyphen_cons, Hh, IHf. reflexivity.
    + rewrite no_double_hyphen_cons, Hh, IHf. reflexivity.
    + exact Hh.
Qed.

Lemma drop_hyphens_shape l :
  (forallb safe_unit l = true -> forallb safe_unit (ExportNamer.drop_hyphens l) = true)
  /\ (no_double_hyphen l = true -> no_double_hyphen (ExportNamer.drop_hyphens l) = true)
  /\ starts_hyphen (ExportNamer.drop_hyphens l) = false.
Proof.
  induction l as [|c l (IHsafe & IHnd & IHs)]; [repeat split|].
  cbn [ExportNamer.drop_hyphens]. destruct (is_hyphen c) eqn:Hc.
  - repeat split; [| |exact IHs].
    + simpl. intros Hs. apply andb_true_iff in Hs as [_ Hs]. auto.
    + rewrite no_double_hyphen_cons. intros Hn.
      apply andb_true_iff in Hn as [_ Hn]. auto.
  - repeat split; first [tauto | exact Hc].
Qed.

Lemma strip_trailing_shape l :
  (forallb safe_unit l = true ->
   forallb safe_unit (rev (ExportNamer.drop_hyphens (rev l))) = true)
  /\ (starts_hyphen (rev (ExportNamer.drop_hyphens (rev l))) = true ->
      starts_hyphen l = true)
  /\ (no_double_hyphen l = true ->
      no_double_hyphen (rev (ExportNamer.drop_hyphens (rev l))) = true).
Proof.
  induction l as [|c l (IHsafe & IHs & IHnd)]; [repeat split; auto|].
  rewrite strip_trailing_cons.
  destruct (forallb is_hyphen (c :: l)); [repeat split; auto; discriminate|].
  repeat split.
  - simpl. intros Hs. apply andb_true_iff in Hs as [-> Hs]. auto.
  - simpl. auto.
  - rewrite !no_double_hyphen_cons. intros Hn.
    apply andb_true_iff in Hn as [Hc Hn]. rewrite (IHnd Hn), andb_true_r.
    destruct (starts_hyphen (rev (ExportNamer.drop_hyphens (rev l)))) eqn:E;
      [|rewrite andb_false_r; reflexivity].
    rewrite (IHs eq_refl) in Hc. exact Hc.
Qed.

Lemma slug_is_slug first last : is_slug (ExportNamer.slug first last) = true.
Proof.
  unfold is_slug, ExportNamer.slug, ExportNamer.strip.
  rewrite list_ascii_of_string_of_list_ascii.
  set (h := ExportNamer.hyphenate false _).
  destruct (hyphenate_shape
              (list_ascii_of_string
                 (JS.toLowerCase (JS.trim (first +:+ " " +:+ last)))))
    as (Hsafe & Hnd & _ & _).
  fold h in Hnd. specialize (Hsafe false). fold h in Hsafe.
  destruct (drop_hyphens_shape h) as (Dsafe & Dnd & Ds).
  destruct (strip_trailing_shape (ExportNamer.drop_hyphens h)) as (Tsafe & Ts & Tnd).
  rewrite (Tsafe (Dsafe Hsafe)), (Tnd (Dnd Hnd)), rev_involutive.
  rewrite (proj2 (proj2 (drop_hyphens_shape (rev (ExportNamer.drop_hyphens h))))).
  destruct (starts_hyphen (rev (ExportNamer.drop_hyphens (rev (ExportNamer.drop_hyphens h)))))
    eqn:E; [|reflexivity].
  rewrite (Ts eq_refl) in Ds. discriminate.
Qed.

(** X11: whatever the two names are, the download name is a base made only of
    a-z, 0-9 and hyphens, non-empty, with no hyphen at either end and no
    two hyphens in a row, followed by -vcard-qr.png. *)
Theorem fileName_is_safe (first last : string) :
  is_slug (safeName first last) = true
  /\ exists base,
       fileName first last = base +:+ "-vcard-qr.png"
       /\ base <> ""
       /\ is_slug base = true.
Proof.
  assert (Hslug : is_slug (safeName first last) = true)
    by (rewrite safeName_slug; apply slug_is_slug).
  split; [exact Hslug|]. unfold fileName.
  destruct (safeName first last) as [|c rest] eqn:E; simpl JS.truthy; cbv iota.
  - exists "contact". repeat split. discriminate.
  - exists (String c rest). repeat split; [discriminate|exact Hslug].
Qed.

(** ** The translation lookup *)

Lemma dot_free_cons c seg :
  dot_free (String c seg) <-> c <> "."%char /\ dot_free seg.
Proof. unfold dot_free. simpl. apply (Forall_cons (fun d => d <> "."%char)). Qed.

Lemma split_nonempty sep s : split sep s <> [].
Proof.
  destruct s as [|c s]; simpl; [discriminate|].
  destruct (Ascii.eqb c sep); [discriminate|]. destruct (split sep s); discriminate.
Qed.

Lemma split_dot_free seg : dot_free seg -> split "." seg = [seg].
Proof.
  induction seg as [|c seg IH]; [reflexivity|].
  intros [Hc Hseg]%dot_free_cons. simpl.
  destruct (Ascii.eqb_spec c "."); [congruence|]. rewrite (IH Hseg). reflexivity.
Qed.

Lemma split_namespace k p :
  dot_free k -> split "." (k +:+ "." +:+ p) = k :: split "." p.
Proof.
  induction k as [|c k IH]; [reflexivity|].
  intros [Hc Hk]%dot_free_cons. rewrite append_cons. cbn [split].
  destruct (Ascii.eqb_spec c "."); [congruence|]. rewrite (IH Hk). reflexivity.
Qed.

Lemma split_join segs :
  segs <> [] -> Forall dot_free segs -> split "." (JS.join "." segs) = segs.
Proof.
  induction segs as [|k segs IH]; [congruence|]. intros _ Hall.
  apply Forall_cons in Hall as [Hk Hall].
  destruct segs as [|k' segs]; [apply split_dot_free, Hk|].
  change (JS.join "." (k :: k' :: segs))
    with (k +:+ "." +:+ JS.join "." (k' :: segs)).
  rewrite (split_namespace k _ Hk), IH by (discriminate || exact Hall).
  reflexivity.
Qed.

(** X14: a key made by joining dot-free segments with dots is looked up segment
    by segment: when the chain of properties leads to a string, the lookup
    returns that string. *)
Theorem resolve_joined_key (translation : Json) (segs : list string) (s : string) :
  segs <> [] -> Forall dot_free segs ->
  walk segs translation = Some (JString s) ->
  resolveTranslation translation (JS.join "." segs) = s
  /\ resolveTranslation (nest segs (JString s)) (JS.join "." segs) = s.
Proof.
  intros Hne Hall Hwalk. unfold resolveTranslation.
  rewrite (split_join segs Hne Hall), Hwalk. split; [reflexivity|].
  assert (Hnest : forall l leaf, walk l (nest l leaf) = Some leaf).
  { induction l as [|k l IH]; intros leaf; [reflexivity|].
    simpl. rewrite String.eqb_refl. apply IH. }
  rewrite Hnest. reflexivity.
Qed.

Lemma member_strings seg t next :
  member seg t = Some next ->
  forall s, In s (strings_of next) -> In s (strings_of t).
Proof.
  destruct t as [x|members|items|]; simpl; try discriminate.
  - induction members as [|[k v] members IH]; simpl; [discriminate|].
    intros Hm s Hs. apply in_or_app.
    destruct (String.eqb k seg); [injection Hm as ->; auto|].
    right. exact (IH Hm s Hs).
  - generalize 0. induction items as [|x items IH]; simpl; [discriminate|].
    intros i Hm s Hs. apply in_or_app.
    destruct (String.eqb (index_text i) seg); [injection Hm as ->; auto|].
    right. exact (IH (S i) Hm s Hs).
Qed.

Lemma walk_strings segs : forall t s,
  walk segs t = Some (JString s) -> In s (strings_of t).
Proof.
  induction segs as [|seg segs IH]; simpl; intros t s Hw.
  - injection Hw as ->. left. reflexivity.
  - destruct (member seg t) as [next|] eqn:Hm; [|discriminate].
    apply (member_strings seg t next Hm), IH, Hw.
Qed.

(** X15: the lookup never invents text: its result is the key itself or a string
    stored in the translation; and a translation that is not an object with
    members (a string, a number, null, an empty object or array) gives every
    key back unchanged. *)
Theorem resolveTranslation_falls_back (translation : Json) (path : string) :
  (resolveTranslation translation path = path
   \/ In (resolveTranslation translation path) (strings_of translation))
  /\ (strings_of translation = [] -> resolveTranslation translation path = path).
Proof.
  assert (Hcases : resolveTranslation translation path = path
    \/ In (resolveTranslation translation path) (strings_of translation)).
  { unfold resolveTranslation.
    destruct (walk (split "." path) translation) as [[s| | |]|] eqn:Hw; auto.
    right. apply (walk_strings _ _ _ Hw). }
  split; [exact Hcases|].
  intros Hnone. destruct Hcases as [?|Hin]; [assumption|].
  rewrite Hnone in Hin. destruct Hin.
Qed.

(** X16: keys resolve namespace by namespace: under a dot-free first segment
    that the object holds, the rest of the key is looked up in that member,
    and when it resolves there (to something other than the rest itself) the
    whole key resolves to the same text; under a first segment the object
    does not hold, the whole key comes back unchanged. *)
Theorem resolve_under_namespace (members : list (string * Json)) (k p : string) :
  dot_free k ->
  (forall inner,
     assoc k members = Some inner ->
     resolveTranslation inner p <> p ->
     resolveTranslation (JObject members) (k +:+ "." +:+ p) = resolveTranslation inner p)
  /\ (assoc k members = None ->
      resolveTranslation (JObject members) (k +:+ "." +:+ p) = k +:+ "." +:+ p).
Proof.
  intros Hk. unfold resolveTranslation. rewrite (split_namespace k p Hk).
  cbn [walk member]. split.
  - intros inner -> Hres.
    destruct (walk (split "." p) inner) as [[s| | |]|]; congruence.
  - intros ->. reflexivity.
Qed.

(** ** Letter case and the download name *)

Lemma lower_unit_whitespace c : JS.is_whitespace (JS.lower_unit c) = JS.is_whitespace c.
Proof. destruct c as [[] [] [] [] [] [] [] []]; vm_compute; reflexivity. Qed.

Lemma toLowerCase_app a b :
  JS.toLowerCase (a +:+ b) = JS.toLowerCase a +:+ JS.toLowerCase b.
Proof.
  induction a as [|c a IH]; [reflexivity|].
  rewrite append_cons. cbn [JS.toLowerCase]. rewrite IH. reflexivity.
Qed.

Lemma toLowerCase_trimStart s :
  JS.toLowerCase (JS.trimStart s) = JS.trimStart (JS.toLowerCase s).
Proof.
  induction s as [|c s IH]; [reflexivity|].
  cbn [JS.trimStart JS.toLowerCase]. rewrite lower_unit_whitespace.
  destruct (JS.is_whitespace c); [exact IH|reflexivity].
Qed.

Lemma toLowerCase_trimEnd s :
  JS.toLowerCase (JS.trimEnd s) = JS.trimEnd (JS.toLowerCase s).
Proof.
  induction s as [|c s IH]; [reflexivity|].
  cbn [JS.trimEnd JS.toLowerCase]. rewrite <- IH, lower_unit_whitespace.
  destruct (JS.trimEnd s) as [|d t]; cbn [JS.toLowerCase].
  - destruct (JS.is_whitespace c); reflexivity.
  - reflexivity.
Qed.

Lemma toLowerCase_trim s : JS.toLowerCase (JS.trim s) = JS.trim (JS.toLowerCase s).
Proof. unfold JS.trim. rewrite toLowerCase_trimEnd, toLowerCase_trimStart. reflexivity. Qed.

(** X12: the download name does not depend on letter case: two pairs of names
    that lower-case to the same texts get the same file name. *)
Theorem fileName_ignores_case (first last first' last' : string) :
  JS.toLowerCase first = JS.toLowerCase first' ->
  JS.toLowerCase last = JS.toLowerCase last' ->
  fileName first last = fileName first' last'.
Proof.
  intros Hf Hl.
  assert (Hsafe : forall a b,
    safeName a b =
    JS.replaceAll re_edge_hyphens ""
      (JS.replaceAll re_non_alnum "-"
         (JS.trim (JS.trim (JS.toLowerCase a +:+ " " +:+ JS.toLowerCase b))))).
  { intros a b. unfold safeName.
    rewrite !toLowerCase_trim, !toLowerCase_app. reflexivity. }
  unfold fileName. rewrite (Hsafe first last), (Hsafe first' last'), Hf, Hl.
  reflexivity.
Qed.

(** ** The input component *)


(** ** What the form shows and what the encoder receives *)

Section Rendering.
Context `{Formats}.

(** X18: in every state reachable through the rendered controls, a field's input
    is marked invalid exactly when the error map holds a key for the field
    whose translation is not empty, and it then shows that translation in
    the error style. *)
Theorem invalid_mark_iff_failed_check
    (sys : System) (translation : Json) (label : string) (f : Field) :
  ui_reachable sys ->
  (v_ariaInvalid (renderInput (fieldInputProps translation label f (view sys)))
     = Some "true"
   <-> exists m, errors (view sys) !! f = Some m
                 /\ resolveTranslation translation m <> "")
  /\ (forall m, errors (view sys) !! f = Some m ->
        resolveTranslation translation m <> "" ->
        v_helper (renderInput (fieldInputProps translation label f (view sys)))
        = Some (true, resolveTranslation translation m)).
Proof.
  intros Hreach. pose proof (reachable_errors_known sys Hreach f) as Hknown.
  unfold renderInput, fieldInputProps, shownError. simpl.
  destruct (errors (view sys) !! f) as [m|] eqn:Hm; simpl.
  - rewrite (known_error_truthy f m (Hknown m eq_refl)). simpl.
    destruct (resolveTranslation translation m) as [|c t] eqn:Hr; simpl.
    + split; [split|].
      * discriminate.
      * intros (m' & [= <-] & Hne). congruence.
      * intros m' [= <-] Hne. congruence.
    + split; [split|].
      * intros _. exists m. split; [reflexivity|]. rewrite Hr. discriminate.
      * reflexivity.
      * intros m' [= <-] _. rewrite Hr. reflexivity.
  - split; [split|].
    + discriminate.
    + intros (m & Hm' & _). discriminate.
    + intros m Hm'. discriminate.
Qed.

(** X19: in every state reachable through the rendered controls, each pending
    encoder call carries the fixed options and the card of a record that
    passed the schema. *)
Theorem encoder_receives_only_valid_cards (sys : System) :
  ui_reachable sys ->
  forall r, In r (pending sys) ->
    options r = mkOptions EC_M 1 6
    /\ exists d data, safeParse d = inr data /\ text r = buildVCard data.
Proof.
  induction 1 as [|e sys sys' Hreach IH Hen Hfire]; [intros r []|].
  destruct sys as [s p]. simpl in IH.
  destruct e; simpl in Hfire.
  - injection Hfire as <-. simpl. rewrite app_nil_r. exact IH.
  - injection Hfire as <-. unfold run_handler. simpl.
    rewrite (proj2 (handleBlur_rest f (getField f (formData s)) s)), app_nil_r.
    exact IH.
  - injection Hfire as <-. unfold run_handler, requests. simpl.
    destruct (safeParse (formData s)) as [found|data] eqn:Hparse.
    + rewrite (handleSubmit_invalid s found Hparse). simpl.
      rewrite app_nil_r. exact IH.
    + rewrite (handleSubmit_valid s data Hparse). simpl.
      intros r [Hr|[<-|[]]]%in_app_or; [exact (IH r Hr)|].
      split; [reflexivity|]. exists (formData s), data. auto.
  - destruct (p !! i); [|discriminate]. injection Hfire as <-. simpl.
    intros r Hr. apply IH. apply list_elem_of_In.
    apply list_elem_of_In in Hr. exact (list_elem_of_delete_inv r i p Hr).
  - injection Hfire as <-. simpl. rewrite app_nil_r. exact IH.
  - injection Hfire as <-. simpl. rewrite app_nil_r. exact IH.
Qed.

End Rendering.

(** ** Blanks and the download name *)

Lemma whitespace_outside c :
  JS.is_whitespace c = true -> ExportNamer.outside (JS.lower_unit c) = true.
Proof. destruct c as [[] [] [] [] [] [] [] []]; vm_compute; congruence. Qed.

Lemma units_app a b :
  list_ascii_of_string (a +:+ b) = list_ascii_of_string a ++ list_ascii_of_string b.
Proof.
  induction a as [|c a IH]; [reflexivity|].
  rewrite append_cons. simpl. rewrite IH. reflexivity.
Qed.

Lemma units_lower s :
  list_ascii_of_string (JS.toLowerCase s) = map JS.lower_unit (list_ascii_of_string s).
Proof. induction s as [|c s IH]; simpl; [|rewrite IH]; reflexivity. Qed.

Lemma trimStart_units s :
  exists w, list_ascii_of_string s = w ++ list_ascii_of_string (JS.trimStart s)
            /\ forallb JS.is_whitespace w = true.
Proof.
  induction s as [|c s (w & Hw & Hall)]; [exists []; auto|].
  simpl. destruct (JS.is_whitespace c) eqn:W.
  - exists (c :: w). simpl. rewrite Hw, W, Hall. auto.
  - exists []. auto.
Qed.

Lemma trimEnd_units s :
  exists w, list_ascii_of_string s = list_ascii_of_string (JS.trimEnd s) ++ w
            /\ forallb JS.is_whitespace w = true.
Proof.
  induction s as [|c s (w & Hw & Hall)]; [exists []; auto|].
  cbn [JS.trimEnd]. destruct (JS.trimEnd s) as [|d t].
  - simpl in Hw. destruct (JS.is_whitespace c) eqn:W.
    + exists (c :: w). simpl. rewrite Hw, W, Hall. auto.
    + exists w. simpl. rewrite Hw. auto.
  - exists w. simpl. simpl in Hw. rewrite Hw. auto.
Qed.

Lemma trim_units s :
  exists w1 w2,
    list_ascii_of_string s = w1 ++ list_ascii_of_string (JS.trim s) ++ w2
    /\ forallb JS.is_whitespace w1 = true /\ forallb JS.is_whitespace w2 = true.
Proof.
  destruct (trimStart_units s) as (w1 & H1 & A1).
  destruct (trimEnd_units (JS.trimStart s)) as (w2 & H2 & A2).
  exists w1, w2. unfold JS.trim. rewrite H1, H2. auto.
Qed.

Lemma lowered_blanks_outside w :
  forallb JS.is_whitespace w = true ->
  forallb ExportNamer.outside (map JS.lower_unit w) = true.
Proof.
  induction w as [|c w IH]; simpl; [reflexivity|].
  intros [Hc Hw]%andb_true_iff. rewrite (whitespace_outside c Hc). auto.
Qed.

Lemma hyphenate_app x : forall b y,
  ExportNamer.hyphenate b (x ++ y)
  = ExportNamer.hyphenate b x ++ ExportNamer.hyphenate (last_outside b x) y.
Proof.
  induction x as [|c x IH]; intros b y; [reflexivity|].
  cbn [app ExportNamer.hyphenate last_outside fold_left].
  fold (last_outside (ExportNamer.outside c) x).
  destruct (ExportNamer.outside c); [destruct b|]; rewrite IH; reflexivity.
Qed.

Lemma hyphenate_outside o b :
  forallb ExportNamer.outside o = true ->
  ExportNamer.hyphenate b o = (if b then [] else match o with [] => [] | _ => ["-"%char] end)
  /\ last_outside b o = match o with [] => b | _ => true end.
Proof.
  revert b. induction o as [|c o IH]; intros b; [destruct b; auto|].
  simpl. intros [Hc Ho]%andb_true_iff. rewrite Hc.
  fold (last_outside true o). destruct (IH true Ho) as [Hh Hl].
  rewrite Hh, Hl. split; [destruct b; reflexivity|destruct o; reflexivity].
Qed.

Lemma drop_hyphens_fixed l : starts_hyphen l = false -> ExportNamer.drop_hyphens l = l.
Proof. destruct l as [|c l]; simpl; [reflexivity|]. intros ->. reflexivity. Qed.

(** Stripping the front of a hyphenated text is hyphenating as if a run
    were already open. *)
Lemma slug_units_open l :
  slug_units l
  = rev (ExportNamer.drop_hyphens (rev (ExportNamer.hyphenate true l))).
Proof.
  unfold slug_units, ExportNamer.strip. do 3 f_equal.
  destruct l as [|c l]; [reflexivity|]. cbn [ExportNamer.hyphenate].
  destruct (ExportNamer.outside c) eqn:Hc.
  - simpl. apply drop_hyphens_fixed, hyphenate_shape.
  - simpl. rewrite (inside_not_hyphen c Hc). reflexivity.
Qed.

(** Runs of outside units at either end do not show in the slug. *)
Lemma slug_units_edges o1 m o2 :
  forallb ExportNamer.outside o1 = true ->
  forallb ExportNamer.outside o2 = true ->
  slug_units (o1 ++ m ++ o2) = slug_units m.
Proof.
  intros H1 H2. rewrite !slug_units_open, !hyphenate_app.
  destruct (hyphenate_outside o1 true H1) as [-> ->].
  replace (match o1 with [] => true | _ => true end) with true by (destruct o1; reflexivity).
  cbn [app].
  destruct (hyphenate_outside o2 (last_outside true m) H2) as [-> _].
  destruct (last_outside true m); [rewrite app_nil_r; reflexivity|].
  destruct o2; [rewrite app_nil_r; reflexivity|].
  rewrite rev_app_distr. reflexivity.
Qed.

(** Between two texts any non-empty run of outside units gives the same
    slug. *)
Lemma slug_units_middle x o o' y :
  forallb ExportNamer.outside o = true -> o <> [] ->
  forallb ExportNamer.outside o' = true -> o' <> [] ->
  slug_units (x ++ o ++ y) = slug_units (x ++ o' ++ y).
Proof.
  intros Ho Hne Ho' Hne'. rewrite !slug_units_open, !hyphenate_app.
  destruct (hyphenate_outside o (last_outside true x) Ho) as [-> ->].
  destruct (hyphenate_outside o' (last_outside true x) Ho') as [-> ->].
  destruct o; [congruence|]. destruct o'; [congruence|]. reflexivity.
Qed.

Lemma slug_of_units first last :
  ExportNamer.slug first last
  = string_of_list_ascii
      (slug_units (map JS.lower_unit
                     (list_ascii_of_string (JS.trim (first +:+ " " +:+ last))))).
Proof. unfold ExportNamer.slug, slug_units. rewrite units_lower. reflexivity. Qed.

Lemma slug_trimmed_names first last :
  ExportNamer.slug first last = ExportNamer.slug (JS.trim first) (JS.trim last).
Proof.
  rewrite !slug_of_units. f_equal.
  assert (Htrim : forall s,
    slug_units (map JS.lower_unit (list_ascii_of_string (JS.trim s)))
    = slug_units (map JS.lower_unit (list_ascii_of_string s))).
  { intros s. destruct (trim_units s) as (w1 & w2 & -> & A1 & A2).
    rewrite !map_app. symmetry.
    apply slug_units_edges; apply lowered_blanks_outside; assumption. }
  rewrite !Htrim, !units_app.
  destruct (trim_units first) as (a1 & a2 & -> & A1 & A2).
  destruct (trim_units last) as (b1 & b2 & -> & B1 & B2).
  rewrite !map_app.
  set (x := map JS.lower_unit (list_ascii_of_string (JS.trim first))).
  set (y := map JS.lower_unit (list_ascii_of_string (JS.trim last))).
  apply lowered_blanks_outside in A1, A2, B1, B2.
  transitivity
    (slug_units (map JS.lower_unit a1
                 ++ (x ++ (map JS.lower_unit a2
                           ++ map JS.lower_unit (list_ascii_of_string " ")
                           ++ map JS.lower_unit b1) ++ y)
                 ++ map JS.lower_unit b2)).
  { f_equal. rewrite <- !app_assoc. reflexivity. }
  rewrite (slug_units_edges _ _ _ A1 B2).
  apply slug_units_middle.
  - rewrite !forallb_app, A2, B1. reflexivity.
  - destruct (map JS.lower_unit a2); discriminate.
  - reflexivity.
  - discriminate.
Qed.

(** X13: the download name is the same whether it is computed from the names as
    typed or from the trimmed names that go into the card. *)
Theorem fileName_ignores_outer_blanks (first last : string) :
  fileName first last = fileName (JS.trim first) (JS.trim last).
Proof.
  unfold fileName. rewrite !safeName_slug, <- slug_trimmed_names. reflexivity.
Qed.

(** ** Parsing twice *)

Section Stability.
Context `{Formats}.

Lemma parsed_field d f :
  getField f (parsed_data d) = value (parse (shape f) (getField f d)).
Proof. destruct f; reflexivity. Qed.

Lemma FormState_ext (a b : FormState) :
  (forall f, getField f a = getField f b) -> a = b.
Proof.
  intros Hall. destruct a, b.
  pose proof (Hall firstName). pose proof (Hall lastName). pose proof (Hall jobTitle).
  pose proof (Hall company). pose proof (Hall email). pose proof (Hall phone).
  pose proof (Hall website). pose proof (Hall street). pose proof (Hall city).
  pose proof (Hall state). pose proof (Hall postalCode). pose proof (Hall country).
  simpl in *. congruence.
Qed.

Lemma parse_again f v :
  (forall x out, url_check x = Some out -> url_check out = Some out) ->
  accepts f v = true ->
  accepts f (value (parse (shape f) v)) = true
  /\ value (parse (shape f) (value (parse (shape f) v))) = value (parse (shape f) v).
Proof.
  intros Hurl. unfold accepts, ok.
  destruct f; unfold shape; cbn [parse value issues];
    try (rewrite !trim_idempotent; intros _; split; reflexivity).
  - (* firstName *)
    destruct (Nat.leb 1 (String.length (JS.trim v))) eqn:E; cbn [value issues];
      [|discriminate].
    rewrite !trim_idempotent, E. cbn [value issues]. auto.
  - (* email *)
    destruct (email_format v) eqn:E; cbn [value issues ok].
    + rewrite E. auto.
    + destruct (String.eqb_spec v ""); cbn [value issues ok]; [|discriminate].
      subst v. rewrite E. auto.
  - (* phone *)
    destruct (Nat.leb 1 (String.length (JS.trim v))) eqn:E; cbn [value issues];
      [|discriminate].
    rewrite !trim_idempotent, E. cbn [value issues]. auto.
  - (* website *)
    destruct (url_check v) as [out|] eqn:E; cbn [value issues ok].
    + rewrite (Hurl v out E). auto.
    + destruct (String.eqb_spec v ""); cbn [value issues ok]; [|discriminate].
      subst v. rewrite E. auto.
Qed.

(** X20: parsing is a normalisation: when the URL check outputs texts it accepts
    unchanged, the output of a successful parse parses again, to itself. *)
Theorem parsed_record_is_stable (d data : FormState) :
  (forall x out, url_check x = Some out -> url_check out = Some out) ->
  safeParse d = inr data ->
  safeParse data = inr data.
Proof.
  intros Hurl Hparse. apply safeParse_inr in Hparse as [-> Hnil].
  pose proof (proj1 (object_issues_nil _) Hnil) as Hall.
  apply safeParse_inr. split.
  - apply FormState_ext. intros f. rewrite !parsed_field.
    symmetry. apply (parse_again f _ Hurl (Hall f)).
  - apply object_issues_nil. intros f. rewrite parsed_field.
    apply (parse_again f _ Hurl (Hall f)).
Qed.

End Stability.

(** ** The properties at work on concrete records *)

#[local] Existing Instance Sample.formats.

Lemma generatingSystem_reachable : ui_reachable generatingSystem.
Proof.
  apply (ui_run_reachable (typeAnaPop ++ [Submit]) initialSystem).
  - apply ui_init.
  - vm_compute. reflexivity.
Qed.

(** C1 fails on the handler: with a call pending and the flag set, running
    handleSubmit again makes a second encoder call, and on a record made
    invalid in the meantime it rewrites the error map. *)
Lemma handleSubmit_reenters_while_generating :
  ui_run (typeAnaPop ++ [Submit]) initialSystem = Some generatingSystem
  /\ isGenerating (view generatingSystem) = true
  /\ requests handleSubmit (view generatingSystem)
     = [mkRequest (buildVCard anaPop) encodeOptions]
  /\ length (pending (run_handler handleSubmit generatingSystem)) = 2
  /\ errors (view generatingSystem) = ∅
  /\ errors (after handleSubmit (after (handleChange firstName "") (view generatingSystem)))
     = {[ firstName := "validation.firstNameRequired" ]}.
Proof. repeat split; vm_compute; reflexivity. Qed.

Lemma single_flight_by_disabled_submit_witness :
  length (pending generatingSystem) <= 1
  /\ (isGenerating (view generatingSystem) = true
      <-> length (pending generatingSystem) = 1).
Proof.
  apply (proj2 (proj2 (proj2 single_flight_by_disabled_submit))).
  exact generatingSystem_reachable.
Defined.

(** C2 fails on email: a single blank trims to the empty string, yet the
    email schema does not trim, the blank is neither an address nor the
    empty literal, and both the field check and the record parse reject it.
    Likewise an address with blanks around it is rejected although its
    trimmed form is accepted. *)
Lemma whitespace_email_is_rejected :
  JS.trim " " = ""
  /\ result (validateField email " ") initialState = false
  /\ errors (after (validateField email " ") initialState) !! email
     = Some "validation.emailInvalid"
  /\ safeParse (setField email " " anaPop) = inl [(email, "validation.emailInvalid")]
  /\ accepts email " ana.pop@example.com " = false
  /\ accepts email (JS.trim " ana.pop@example.com ") = true.
Proof. repeat split; vm_compute; reflexivity. Qed.

Lemma validation_rules_per_field_witness :
  accepts email "ana.pop@example.com" = true
  /\ accepts firstName " Ana " = true
  /\ accepts company "" = true.
Proof.
  destruct validation_rules_per_field
    as (_ & _ & _ & Hfirst & _ & Hemail & _ & Hother).
  split; [|split].
  - apply Hemail. right. vm_compute. reflexivity.
  - apply Hfirst. vm_compute. discriminate.
  - apply Hother; discriminate.
Defined.

(** C3 fails on the artifact: submitting a valid draft while an earlier
    artifact is held leaves that artifact in place, and the text sent to the
    encoder is the serialization of the trimmed record, not of the draft. *)
Lemma submit_keeps_prior_artifact :
  qrCodeData staleState = Some oldArtifact
  /\ qrCodeData (after handleSubmit staleState) = Some oldArtifact
  /\ requests handleSubmit staleState = [mkRequest (buildVCard anaPop) encodeOptions]
  /\ buildVCard (formData staleState) <> buildVCard anaPop.
Proof. repeat split; vm_compute; (reflexivity || discriminate). Qed.

Lemma valid_submit_starts_generation_witness :
  handleSubmit staleState =
    (tt, mkState anaDraft ∅ (Some oldArtifact) true None,
     [mkRequest (buildVCard anaPop) (mkOptions EC_M 1 6)])
  /\ f_firstName anaPop = JS.trim (f_firstName anaDraft).
Proof.
  assert (Hparse : safeParse (formData staleState) = inr anaPop)
    by (vm_compute; reflexivity).
  destruct (valid_submit_starts_generation staleState anaPop Hparse)
    as (Hrun & Htext & _ & _).
  split; [exact Hrun|].
  apply (Htext firstName); discriminate.
Defined.

Lemma invalid_submit_reports_each_field_witness :
  errors (after handleSubmit (mkState phoneOnly ∅ None false None))
  = {[ firstName := "validation.firstNameRequired" ]}
  /\ requests handleSubmit (mkState phoneOnly ∅ None false None) = [].
Proof.
  assert (Hparse :
    safeParse (formData (mkState phoneOnly ∅ None false None))
    = inl [(firstName, "validation.firstNameRequired")])
    by (vm_compute; reflexivity).
  destruct (invalid_submit_reports_each_field _ _ Hparse)
    as (Hrun & _ & _ & Hone).
  split.
  - apply Hone; vm_compute; (reflexivity || discriminate).
  - unfold requests. rewrite Hrun. reflexivity.
Defined.

Lemma adr_line_iff_address_witness :
  exists l,
    In l (vcardLines (setField city " Cluj " anaPop))
    /\ is_adr_line l = true
    /\ l = "ADR;TYPE=WORK:;;;Cluj;;;".
Proof.
  destruct (adr_line_iff_address (setField city " Cluj " anaPop))
    as ([_ Hhas] & Hshape & _).
  destruct Hhas as (l & Hl & Hadr).
  - right. left. vm_compute. discriminate.
  - exists l. split; [exact Hl|]. split; [exact Hadr|].
    rewrite (Hshape l Hl Hadr). vm_compute. reflexivity.
Defined.

Lemma fileName_is_nameFor_witness :
  downloadQrCode (mkState (mkForm "X" "Y" "" "" "" "" "" "" "" "" "" "")
                          ∅ (Some oldArtifact) false None)
  = Some (mkLink oldArtifact (ExportNamer.nameFor "X" "Y")).
Proof.
  apply (proj2 (proj2 (proj2 fileName_is_nameFor))); reflexivity.
Defined.

Lemma rejected_request_reports_failure_witness :
  qrError (after (handleSubmit_settled Rejected) (after handleSubmit staleState))
  = Some generationFailed
  /\ qrCodeData (after (handleSubmit_settled Rejected) (after handleSubmit staleState))
     = Some oldArtifact.
Proof.
  assert (Hparse : safeParse (formData staleState) = inr anaPop)
    by (vm_compute; reflexivity).
  destruct (rejected_request_reports_failure staleState anaPop Hparse)
    as (_ & Herr & _ & _ & Hart & _).
  split; [exact Herr|exact Hart].
Defined.

(** C9 fails on reset: pressing reset while the call is pending empties the
    record and leaves the generating flag set. *)
Lemma reset_leaves_generating_flag :
  ui_run (typeAnaPop ++ [Submit; Reset]) initialSystem
  = Some (mkSystem (mkState initialFormState ∅ None true None)
                   [mkRequest (buildVCard anaPop) encodeOptions])
  /\ isGenerating (view generatingSystem) = true
  /\ isGenerating (after resetFormData (view generatingSystem)) = true.
Proof. repeat split; vm_compute; reflexivity. Qed.

Lemma generating_flag_cleared_on_settle_witness :
  exists r, pending generatingSystem = [r]
    /\ forall o, exists sys',
         fire (Settle 0 o) generatingSystem = Some sys'
         /\ isGenerating (view sys') = false
         /\ pending sys' = [].
Proof.
  apply (proj2 (proj2 generating_flag_cleared_on_settle)).
  - exact generatingSystem_reachable.
  - reflexivity.
Defined.

Lemma validateField_frame_witness :
  errors (after (validateField email " ")
                (mkState anaPop {[ phone := "validation.phoneRequired" ]} None false None))
    !! phone = Some "validation.phoneRequired"
  /\ errors (after (validateField email " ")
                   (mkState anaPop {[ phone := "validation.phoneRequired" ]} None false None))
       !! email = Some "validation.emailInvalid".
Proof.
  destruct (validateField_frame email " "
              (mkState anaPop {[ phone := "validation.phoneRequired" ]} None false None))
    as (Hframe & Hown & _).
  split.
  - rewrite Hframe by discriminate. vm_compute. reflexivity.
  - rewrite Hown. vm_compute. reflexivity.
Defined.

(** ** Further examples *)

Lemma emptySubmitSystem_reachable : ui_reachable emptySubmitSystem.
Proof.
  apply (ui_run_reachable [Submit] initialSystem).
  - apply ui_init.
  - vm_compute. reflexivity.
Qed.

Lemma optional_line_iff_field_witness :
  List.filter (String.prefix "TEL;TYPE=CELL:") (vcardLines anaPop)
  = opt_line (JS.truthy (getField phone anaPop))
             ("TEL;TYPE=CELL:" +:+ getField phone anaPop).
Proof.
  apply optional_line_iff_field. simpl. tauto.
Defined.

Lemma valid_payload_names_witness :
  displayName anaPop = "Ana Pop"
  /\ In "TEL;TYPE=CELL:+40712345678" (vcardLines anaPop).
Proof.
  assert (Hparse : safeParse anaDraft = inr anaPop) by (vm_compute; reflexivity).
  destruct (valid_payload_names anaDraft anaPop Hparse) as (_ & Hname & _ & _ & Htel).
  split; [exact Hname|exact Htel].
Defined.

Lemma handleChange_sets_one_field_witness :
  getField lastName (formData (after (handleChange firstName "Ana") initialState))
  = getField lastName (formData initialState).
Proof.
  apply (proj1 (proj2 (handleChange_sets_one_field firstName "Ana" initialState))).
  discriminate.
Defined.

Lemma validateField_checks_compose_witness :
  after (validateField phone "") (after (validateField email " ") initialState)
  = after (validateField email " ") (after (validateField phone "") initialState).
Proof.
  apply (proj1 validateField_checks_compose). discriminate.
Defined.

Lemma stored_errors_are_known_witness :
  In (phone, "validation.phoneRequired") known_errors
  /\ "validation.phoneRequired" <> "validation.generic"
  /\ forall translation,
       shownError translation phone (view emptySubmitSystem)
       = Some (resolveTranslation translation "validation.phoneRequired").
Proof.
  apply (stored_errors_are_known emptySubmitSystem emptySubmitSystem_reachable).
  vm_compute. reflexivity.
Defined.

Lemma no_generation_error_while_generating_witness :
  qrError (view generatingSystem) = None.
Proof.
  apply (no_generation_error_while_generating generatingSystem).
  - exact generatingSystem_reachable.
  - reflexivity.
Defined.

Lemma resolved_request_offers_download_witness :
  downloadQrCode
    (after (handleSubmit_settled (Resolved oldArtifact)) (after handleSubmit staleState))
  = Some (mkLink oldArtifact (fileName " Ana " "Pop")).
Proof.
  assert (Hparse : safeParse (formData staleState) = inr anaPop)
    by (vm_compute; reflexivity).
  destruct (resolved_request_offers_download staleState anaPop oldArtifact Hparse eq_refl)
    as (_ & Hlink & _ & _).
  exact Hlink.
Defined.

Lemma fileName_ignores_case_witness : fileName "ANA" "Pop" = fileName "ana" "pop".
Proof. apply fileName_ignores_case; reflexivity. Defined.

Lemma resolve_joined_key_witness :
  resolveTranslation sampleLocale (JS.join "." ["validation"; "emailInvalid"])
  = "Enter a valid email".
Proof.
  apply (resolve_joined_key sampleLocale ["validation"; "emailInvalid"]).
  - discriminate.
  - repeat constructor; discriminate.
  - reflexivity.
Defined.

Lemma resolveTranslation_falls_back_witness :
  resolveTranslation (JObject []) "validation.emailInvalid" = "validation.emailInvalid".
Proof.
  apply (proj2 (resolveTranslation_falls_back (JObject []) "validation.emailInvalid")).
  reflexivity.
Defined.

Lemma resolve_under_namespace_witness :
  resolveTranslation sampleLocale ("messages" +:+ "." +:+ "errors.generationFailed")
  = "messages" +:+ "." +:+ "errors.generationFailed".
Proof.
  apply (proj2 (resolve_under_namespace
                  [("validation",
                    JObject [("firstNameRequired", JString "First name is required");
                             ("emailInvalid", JString "Enter a valid email")]);
                   ("buttons", JObject [("submit", JString "Generate")])]
                  "messages" "errors.generationFailed"
                  ltac:(repeat constructor; discriminate))).
  reflexivity.
Defined.


Lemma invalid_mark_iff_failed_check_witness :
  v_helper (renderInput (fieldInputProps sampleLocale "First name" firstName
                           (view emptySubmitSystem)))
  = Some (true, "First name is required").
Proof.
  destruct (invalid_mark_iff_failed_check emptySubmitSystem sampleLocale "First name"
              firstName emptySubmitSystem_reachable) as [_ Hshow].
  rewrite (Hshow "validation.firstNameRequired");
    vm_compute; (reflexivity || discriminate).
Defined.

Lemma encoder_receives_only_valid_cards_witness :
  options (mkRequest (buildVCard anaPop) encodeOptions) = mkOptions EC_M 1 6
  /\ exists d data,
       safeParse d = inr data
       /\ text (mkRequest (buildVCard anaPop) encodeOptions) = buildVCard data.
Proof.
  apply (encoder_receives_only_valid_cards generatingSystem generatingSystem_reachable).
  left. reflexivity.
Defined.

Lemma fileName_ignores_outer_blanks_witness :
  fileName " Ana " "Pop" = fileName (JS.trim " Ana ") (JS.trim "Pop").
Proof. apply fileName_ignores_outer_blanks. Defined.

Lemma sample_url_output_stable x out :
  Sample.url_scheme x = Some out -> Sample.url_scheme out = Some out.
Proof.
  intros Hx. assert (out = x) as ->; [|exact Hx].
  unfold Sample.url_scheme in Hx.
  destruct (Sample.split_first (Sample.is_char ":") x) as [[[|c sch] [|d rest]]|];
    try discriminate.
  destruct (_ && _); congruence.
Qed.

Lemma parsed_record_is_stable_witness : safeParse anaPop = inr anaPop.
Proof.
  apply (parsed_record_is_stable anaDraft anaPop).
  - exact sample_url_output_stable.
  - vm_compute. reflexivity.
Defined.
